(** * MaidSafe Vault Manager: local messaging primitives

    A shallow embedding of
    - [src/maidsafe/vault_manager/tcp_connection.cc]
      (class [TcpConnection]: length-prefixed frames over a loopback socket);
    - [src/maidsafe/lifestuff_manager/shared_memory_communication.h]
      (classes [SharedMemoryCommunication], [SafeReadOnlySharedMemory] and
      [LifeStuffManagerAddressGetter]).

    Part I holds the definitions, Part II the theorems. *)

From Stdlib Require Import ZArith Lia Bool List.
From Stdlib Require Import Strings.Byte.
From stdpp Require Import base option list gmap strings.
Import ListNotations.

Local Open Scope Z_scope.

(* ===================================================================== *)
(** * Part I: definitions                                                  *)
(* ===================================================================== *)

(** ** Errors and outcomes *)

(** The error codes thrown by the modelled code. *)
Inductive Error : Set :=
| invalid_parameter        (* CommonErrors::invalid_parameter *)
| invalid_string_size      (* CommonErrors::invalid_string_size *)
| ipc_message_too_large    (* VaultManagerErrors::ipc_message_too_large *)
| failed_to_connect        (* VaultManagerErrors::failed_to_connect *)
| invalid_signature        (* AsymmErrors::invalid_signature *)
| already_exists_error     (* boost::interprocess, create_only on a taken name *)
| not_found_error          (* boost::interprocess, open_only on a free name *)
| bad_function_call.       (* calling an empty std::function *)

(** A call either returns a value, throws, or dies on a failed [assert]. *)
Inductive Outcome (A : Type) : Type :=
| Returned (a : A)
| Threw (e : Error)
| Aborted.

Arguments Returned {A} a.
Arguments Threw {A} e.
Arguments Aborted {A}.

(** ** Characters and fixed-width integers *)

#[global] Instance byte_eq_decision : EqDecision byte := Byte.byte_eq_dec.

(** The numeric value of the bit pattern of a byte, in [0, 256). *)
Definition byte_value (b : byte) : Z := Z.of_N (Byte.to_N b).

(** [static_cast<char>(z)]: the low eight bits of [z]. *)
Definition char_of_Z (z : Z) : byte :=
  match Byte.of_N (Z.to_N (z mod 256)) with
  | Some b => b
  | None => x00
  end.

(** Element type of a character buffer.  It decides how an element is
    promoted to [int] when it is used in an arithmetic expression. *)
Inductive char_kind : Set := signed_char | unsigned_char.

(** Integral promotion of a buffer element to [int]. *)
Definition promote (k : char_kind) (b : byte) : Z :=
  match k with
  | unsigned_char => byte_value b
  | signed_char => if byte_value b <? 128 then byte_value b else byte_value b - 256
  end.

(** Wrap-around of a 32-bit [int] and of [uint32_t]. *)
Definition int32 (z : Z) : Z := (z + 2 ^ 31) mod 2 ^ 32 - 2 ^ 31.
Definition uint32 (z : Z) : Z := z mod 2 ^ 32.

(** [x << 8] on [int]. *)
Definition shl8 (x : Z) : Z := int32 (Z.shiftl x 8).

Module TcpConnection.

(** The four-element character array of a length prefix
    ([size_buffer] of both message structs). *)
Definition SizeBuffer : Set := (byte * byte * byte * byte)%type.

Definition zero_size_buffer : SizeBuffer := (x00, x00, x00, x00).

Definition size_buffer_bytes (sb : SizeBuffer) : list byte :=
  let '(b0, b1, b2, b3) := sb in [b0; b1; b2; b3].

Definition size_buffer_of_bytes (bs : list byte) : option SizeBuffer :=
  match bs with
  | [b0; b1; b2; b3] => Some (b0, b1, b2, b3)
  | _ => None
  end.

(** [struct ReceivingMessage { size_buffer; data_buffer; }] *)
Record ReceivingMessage : Set := {
  r_size_buffer : SizeBuffer;
  data_buffer : list byte
}.

(** [struct SendingMessage { size_buffer; data; }] *)
Record SendingMessage : Set := {
  size_buffer : SizeBuffer;
  data : list byte
}.

(** The bytes one [async_write] of a queued frame puts on the socket:
    [buffers[0]] is the size buffer, [buffers[1]] the payload. *)
Definition frame_bytes (m : SendingMessage) : list byte :=
  size_buffer_bytes (size_buffer m) ++ data m.

(** The loop of [EncodeData] that fills [size_buffer] from [data.size()]:
<<
  for (int i = 0; i != 4; ++i)
    message.size_buffer[i] = static_cast<char>(data.size() >> (8 * (3 - i)));
>> *)
Definition size_prefix (size : Z) : SizeBuffer :=
  let enc (i : Z) := char_of_Z (Z.shiftr size (8 * (3 - i))) in
  (enc 0, enc 1, enc 2, enc 3).

Section Framing.

(** [TcpConnection::MaxMessageSize()], declared in tcp_connection.h, which
    is not among the sources. *)
Variable MaxMessageSize : Z.

(** Element type of [ReceivingMessage::size_buffer], declared in
    tcp_connection.h as well.  The wire format is a "4-byte big-endian
    unsigned length prefix"; the theorems on delivery take the elements
    as [unsigned_char]. *)
Variable size_elem : char_kind.

(** [TcpConnection::EncodeData]
<<
  if (data.empty()) throw invalid_string_size;
  if (data.size() > MaxMessageSize()) throw ipc_message_too_large;
  for (int i = 0; i != 4; ++i)
    message.size_buffer[i] = static_cast<char>(data.size() >> (8 * (3 - i)));
  message.data = std::move(data);
>> *)
Definition EncodeData (payload : list byte) : Outcome SendingMessage :=
  let size := Z.of_nat (length payload) in
  if (size =? 0) then Threw invalid_string_size
  else if (size >? MaxMessageSize) then Threw ipc_message_too_large
  else Returned {| size_buffer := size_prefix size; data := payload |}.

(** The reassembly of [data_size] in the handler of [ReadSize]:
<<
  DataSize data_size;
  data_size = (((((size_buffer[0] << 8) | size_buffer[1]) << 8) |
                   size_buffer[2]) << 8) | size_buffer[3];
>>
    The operands are promoted to [int], the result is converted to the
    32-bit unsigned [DataSize]. *)
Definition decode_size (sb : SizeBuffer) : Z :=
  let '(b0, b1, b2, b3) := sb in
  let p := promote size_elem in
  uint32 (Z.lor (shl8 (Z.lor (shl8 (Z.lor (shl8 (p b0)) (p b1))) (p b2))) (p b3)).

(** *** The connection object and the executor it runs on *)

(** Callbacks are opaque; a label stands for the callable that was passed
    in, [None] for an empty [std::function]. *)
Definition MessageReceivedFunctor : Set := nat.
Definition ConnectionClosedFunctor : Set := nat.

(** Boost.Asio error codes seen by the handlers; [None] is success. *)
Inductive AsioError : Set :=
| address_family_not_supported
| connection_refused
| operation_aborted
| eof.

Definition error_code : Set := option AsioError.

Inductive Endpoint : Set :=
| v6_loopback (port : N)
| v4_loopback (port : N).

(** [ip::tcp::socket], as far as the class looks at it. *)
Record Socket : Set := { is_open : bool; peer : option Endpoint }.

(** Work queued on the [io_service] by [post] (or by [dispatch] from
    another thread): the four lambdas of the class. *)
Inductive Handler : Set :=
| HReadSize                          (* [this_ptr] { this_ptr->ReadSize(); } *)
| HDoClose                           (* [this_ptr] { this_ptr->DoClose(); } *)
| HEnqueue (message : SendingMessage) (* the lambda of Send *)
| HDeliver (data : list byte).       (* [=] { on_message_received_(data); } *)

(** Which [async_read] is outstanding on the socket. *)
Inductive ReadOp : Set :=
| SizeRead     (* started by ReadSize, into size_buffer *)
| DataRead.    (* started by ReadData, into data_buffer *)

Record Connection : Set := {
  start_flag_ : bool;                 (* std::once_flag *)
  socket_close_flag_ : bool;          (* std::once_flag *)
  socket_ : Socket;
  on_message_received_ : option MessageReceivedFunctor;
  on_connection_closed_ : option ConnectionClosedFunctor;
  receiving_message_ : ReceivingMessage;
  send_queue_ : list SendingMessage;  (* std::deque<SendingMessage> *)
  (* io_service_: queued handlers and outstanding asynchronous operations *)
  posted_ : list Handler;
  async_read_ : option ReadOp;
  async_write_ : bool
}.

(** What a run of the connection does to the outside world. *)
Inductive Effect : Set :=
| DoCloseCalled                      (* DoClose was entered *)
| SocketShutdownSend                 (* socket_.shutdown(shutdown_send, ec) *)
| SocketClosed                       (* socket_.close(ec) *)
| ConnectionClosedCalled (f : ConnectionClosedFunctor)
| MessageReceivedCalled (f : MessageReceivedFunctor) (data : list byte)
| AsyncReadStarted (n : nat)         (* async_read into a buffer of n bytes *)
| AsyncWriteStarted (bytes : list byte)
| WireBytes (bytes : list byte)      (* an async_write completed *)
| Exception (e : Error).

(** Field updates. *)
Definition set_start_flag (c : Connection) : Connection :=
  {| start_flag_ := true; socket_close_flag_ := socket_close_flag_ c;
     socket_ := socket_ c; on_message_received_ := on_message_received_ c;
     on_connection_closed_ := on_connection_closed_ c;
     receiving_message_ := receiving_message_ c; send_queue_ := send_queue_ c;
     posted_ := posted_ c; async_read_ := async_read_ c;
     async_write_ := async_write_ c |}.

Definition set_socket_close_flag (c : Connection) : Connection :=
  {| start_flag_ := start_flag_ c; socket_close_flag_ := true;
     socket_ := socket_ c; on_message_received_ := on_message_received_ c;
     on_connection_closed_ := on_connection_closed_ c;
     receiving_message_ := receiving_message_ c; send_queue_ := send_queue_ c;
     posted_ := posted_ c; async_read_ := async_read_ c;
     async_write_ := async_write_ c |}.

Definition set_socket (s : Socket) (c : Connection) : Connection :=
  {| start_flag_ := start_flag_ c; socket_close_flag_ := socket_close_flag_ c;
     socket_ := s; on_message_received_ := on_message_received_ c;
     on_connection_closed_ := on_connection_closed_ c;
     receiving_message_ := receiving_message_ c; send_queue_ := send_queue_ c;
     posted_ := posted_ c; async_read_ := async_read_ c;
     async_write_ := async_write_ c |}.

Definition set_callbacks (m : option MessageReceivedFunctor)
    (f : option ConnectionClosedFunctor) (c : Connection) : Connection :=
  {| start_flag_ := start_flag_ c; socket_close_flag_ := socket_close_flag_ c;
     socket_ := socket_ c; on_message_received_ := m;
     on_connection_closed_ := f;
     receiving_message_ := receiving_message_ c; send_queue_ := send_queue_ c;
     posted_ := posted_ c; async_read_ := async_read_ c;
     async_write_ := async_write_ c |}.

Definition set_receiving_message (r : ReceivingMessage) (c : Connection) : Connection :=
  {| start_flag_ := start_flag_ c; socket_close_flag_ := socket_close_flag_ c;
     socket_ := socket_ c; on_message_received_ := on_message_received_ c;
     on_connection_closed_ := on_connection_closed_ c;
     receiving_message_ := r; send_queue_ := send_queue_ c;
     posted_ := posted_ c; async_read_ := async_read_ c;
     async_write_ := async_write_ c |}.

Definition set_send_queue (q : list SendingMessage) (c : Connection) : Connection :=
  {| start_flag_ := start_flag_ c; socket_close_flag_ := socket_close_flag_ c;
     socket_ := socket_ c; on_message_received_ := on_message_received_ c;
     on_connection_closed_ := on_connection_closed_ c;
     receiving_message_ := receiving_message_ c; send_queue_ := q;
     posted_ := posted_ c; async_read_ := async_read_ c;
     async_write_ := async_write_ c |}.

Definition set_posted (hs : list Handler) (c : Connection) : Connection :=
  {| start_flag_ := start_flag_ c; socket_close_flag_ := socket_close_flag_ c;
     socket_ := socket_ c; on_message_received_ := on_message_received_ c;
     on_connection_closed_ := on_connection_closed_ c;
     receiving_message_ := receiving_message_ c; send_queue_ := send_queue_ c;
     posted_ := hs; async_read_ := async_read_ c;
     async_write_ := async_write_ c |}.

Definition set_async_read (r : option ReadOp) (c : Connection) : Connection :=
  {| start_flag_ := start_flag_ c; socket_close_flag_ := socket_close_flag_ c;
     socket_ := socket_ c; on_message_received_ := on_message_received_ c;
     on_connection_closed_ := on_connection_closed_ c;
     receiving_message_ := receiving_message_ c; send_queue_ := send_queue_ c;
     posted_ := posted_ c; async_read_ := r;
     async_write_ := async_write_ c |}.

Definition set_async_write (w : bool) (c : Connection) : Connection :=
  {| start_flag_ := start_flag_ c; socket_close_flag_ := socket_close_flag_ c;
     socket_ := socket_ c; on_message_received_ := on_message_received_ c;
     on_connection_closed_ := on_connection_closed_ c;
     receiving_message_ := receiving_message_ c; send_queue_ := send_queue_ c;
     posted_ := posted_ c; async_read_ := async_read_ c;
     async_write_ := w |}.

(** A member function changes the object and leaves a trace of effects. *)
Definition Action : Set := Connection -> Connection * list Effect.

Definition skip : Action := fun c => (c, []).
Definition emit (e : Effect) : Action := fun c => (c, [e]).
Definition modify (f : Connection -> Connection) : Action := fun c => (f c, []).
Definition andThen (a b : Action) : Action := fun c =>
  let '(c1, e1) := a c in
  let '(c2, e2) := b c1 in
  (c2, e1 ++ e2).

Declare Scope action_scope.
Delimit Scope action_scope with act.
Bind Scope action_scope with Action.
Notation "a ;; b" := (andThen a b)
  (at level 100, b at level 200, right associativity) : action_scope.

(** [io_service_.post(h)]: queue the handler behind those already queued. *)
Definition post (h : Handler) : Action :=
  fun c => (set_posted (posted_ c ++ [h]) c, []).

Local Open Scope action_scope.

(** The state every constructor's member-initialiser list builds: both
    flags clear, the socket not open, both functors empty, the inbound
    buffers zeroed and empty, nothing queued. *)
Definition initial : Connection :=
  {| start_flag_ := false; socket_close_flag_ := false;
     socket_ := {| is_open := false; peer := None |};
     on_message_received_ := None; on_connection_closed_ := None;
     receiving_message_ :=
       {| r_size_buffer := zero_size_buffer; data_buffer := [] |};
     send_queue_ := [];
     posted_ := []; async_read_ := None; async_write_ := false |}.

(** [TcpConnection::TcpConnection(AsioService&)]
<<
  assert(!socket_.is_open());
  if (asio_service.ThreadCount() != 1U) throw invalid_parameter;
>> *)
Definition TcpConnection (thread_count : N) : Outcome Connection :=
  if negb (is_open (socket_ initial)) then
    if negb (thread_count =? 1)%N then Threw invalid_parameter
    else Returned initial
  else Aborted.

(** [socket_.connect(endpoint, ec)] of Boost.Asio: what the operating
    system answers is not the class's business. *)
Variable connect : Socket -> Endpoint -> Socket * error_code.

(** [TcpConnection::TcpConnection(AsioService&, uint16_t remote_port)]
<<
  if (asio_service.ThreadCount() != 1U) throw invalid_parameter;
  socket_.connect({ address_v6::loopback(), remote_port }, ec);
  if (ec && ec == address_family_not_supported)
    socket_.connect({ address_v4::loopback(), remote_port }, ec);
  if (!socket_.is_open()) throw failed_to_connect;
>> *)
Definition TcpConnection_dial (thread_count : N) (remote_port : N)
    : Outcome Connection :=
  if negb (thread_count =? 1)%N then Threw invalid_parameter
  else
    let '(s1, ec1) := connect (socket_ initial) (v6_loopback remote_port) in
    let '(s2, ec2) :=
      match ec1 with
      | Some address_family_not_supported => connect s1 (v4_loopback remote_port)
      | _ => (s1, ec1)
      end in
    if negb (is_open s2) then Threw failed_to_connect
    else Returned (set_socket s2 initial).

(** [TcpConnection::DoClose]
<<
  std::call_once(socket_close_flag_, [this] {
    socket_.shutdown(shutdown_send, ignored_ec);
    socket_.close(ignored_ec);
    if (on_connection_closed_)
      on_connection_closed_();
  });
>> *)
Definition DoClose : Action := fun c =>
  (emit DoCloseCalled ;;
   if socket_close_flag_ c then skip
   else
     emit SocketShutdownSend ;;
     emit SocketClosed ;;
     modify (set_socket {| is_open := false; peer := peer (socket_ c) |}) ;;
     match on_connection_closed_ c with
     | Some f => emit (ConnectionClosedCalled f)
     | None => skip
     end ;;
     modify set_socket_close_flag) c.

(** [TcpConnection::ReadSize]: start an [async_read] that fills
    [receiving_message_.size_buffer]. *)
Definition ReadSize : Action :=
  modify (set_async_read (Some SizeRead)) ;; emit (AsyncReadStarted 4).

(** [TcpConnection::ReadData]: start an [async_read] that fills
    [receiving_message_.data_buffer]. *)
Definition ReadData : Action := fun c =>
  (modify (set_async_read (Some DataRead)) ;;
   emit (AsyncReadStarted (length (data_buffer (receiving_message_ c))))) c.

(** The completion handler of [ReadSize]; on success the four bytes read
    are in [size_buffer].
<<
  if (ec) return DoClose();
  data_size = ...;
  if (data_size > MaxMessageSize()) {
    receiving_message_.data_buffer.clear();
    return DoClose();
  }
  receiving_message_.data_buffer.resize(data_size);
  ReadData();
>> *)
Definition ReadSize_handler (ec : error_code) (sb : SizeBuffer) : Action :=
  match ec with
  | Some _ => DoClose
  | None => fun c =>
      let r := receiving_message_ c in
      let data_size := decode_size sb in
      if data_size >? MaxMessageSize then
        (modify (set_receiving_message
                   {| r_size_buffer := sb; data_buffer := [] |}) ;;
         DoClose) c
      else
        (modify (set_receiving_message
                   {| r_size_buffer := sb;
                      data_buffer := resize (Z.to_nat data_size) x00 (data_buffer r) |}) ;;
         ReadData) c
  end.

(** The completion handler of [ReadData]; on success [bytes] fill
    [data_buffer].
<<
  if (ec) return DoClose();
  std::string data{ begin(data_buffer), end(data_buffer) };
  io_service_.post([=] { on_message_received_(std::move(data)); });
  io_service_.dispatch([this_ptr] { this_ptr->ReadSize(); });
>>
    The handler runs on the executor's thread, where [dispatch] runs its
    argument at once. *)
Definition ReadData_handler (ec : error_code) (bytes : list byte) : Action :=
  match ec with
  | Some _ => DoClose
  | None => fun c =>
      let r := receiving_message_ c in
      (modify (set_receiving_message
                 {| r_size_buffer := r_size_buffer r; data_buffer := bytes |}) ;;
       post (HDeliver bytes) ;;
       ReadSize) c
  end.

(** [TcpConnection::DoSend]: one vectored [async_write] of the frame at
    the front of the queue.  [front()] of an empty deque is undefined; no
    caller reaches it, the model does nothing there. *)
Definition DoSend : Action := fun c =>
  match send_queue_ c with
  | [] => skip c
  | m :: _ =>
      (modify (set_async_write true) ;; emit (AsyncWriteStarted (frame_bytes m))) c
  end.

(** The completion handler of [DoSend].
<<
  if (ec) return DoClose();
  send_queue_.pop_front();
  if (!send_queue_.empty())
    DoSend();
>> *)
Definition DoSend_handler (ec : error_code) : Action :=
  match ec with
  | Some _ => DoClose
  | None => fun c =>
      let q := tail (send_queue_ c) in
      (modify (set_send_queue q) ;;
       match q with
       | [] => skip
       | _ :: _ => DoSend
       end) c
  end.

(** [io_service_.dispatch(h)] for the [ReadSize] lambda: run at once when
    the caller is on the executor's thread, queue otherwise. *)
Definition dispatch_ReadSize (on_io_thread : bool) : Action :=
  if on_io_thread then ReadSize else post HReadSize.

(** [TcpConnection::Start]
<<
  std::call_once(start_flag_, [=] {
    on_message_received_ = on_message_received;
    on_connection_closed_ = on_connection_closed;
    io_service_.dispatch([this_ptr] { this_ptr->ReadSize(); });
  });
>> *)
Definition Start (on_message_received : option MessageReceivedFunctor)
    (on_connection_closed : option ConnectionClosedFunctor)
    (on_io_thread : bool) : Action := fun c =>
  if start_flag_ c then skip c
  else
    (modify (set_callbacks on_message_received on_connection_closed) ;;
     dispatch_ReadSize on_io_thread ;;
     modify set_start_flag) c.

(** [TcpConnection::Close]: [io_service_.post([this_ptr] { DoClose(); })]. *)
Definition Close : Action := post HDoClose.

(** [TcpConnection::Send]
<<
  SendingMessage message(EncodeData(std::move(data)));
  io_service_.post([this_ptr, message] { ... });
>>
    An exception of [EncodeData] leaves [Send] before anything is posted. *)
Definition Send (payload : list byte) : Action :=
  match EncodeData payload with
  | Returned message => post (HEnqueue message)
  | Threw e => emit (Exception e)
  | Aborted => skip
  end.

(** The lambda posted by [Send].
<<
  bool currently_sending{ !send_queue_.empty() };
  send_queue_.emplace_back(std::move(message));
  if (!currently_sending)
    DoSend();
>> *)
Definition Enqueue (message : SendingMessage) : Action := fun c =>
  let currently_sending :=
    match send_queue_ c with [] => false | _ :: _ => true end in
  (modify (set_send_queue (send_queue_ c ++ [message])) ;;
   if negb currently_sending then DoSend else skip) c.

(** The lambda posted by the handler of [ReadData]:
    [on_message_received_(std::move(data))]. *)
Definition Deliver (payload : list byte) : Action := fun c =>
  match on_message_received_ c with
  | Some f => emit (MessageReceivedCalled f payload) c
  | None => emit (Exception bad_function_call) c
  end.

Definition run_handler (h : Handler) : Action :=
  match h with
  | HReadSize => ReadSize
  | HDoClose => DoClose
  | HEnqueue message => Enqueue message
  | HDeliver payload => Deliver payload
  end.

(** *** What can happen to a connection *)

(** Calls of the public interface, the executor taking the next queued
    handler, and completions of the outstanding socket operations. *)
Inductive Event : Set :=
| EvStart (on_message_received : option MessageReceivedFunctor)
          (on_connection_closed : option ConnectionClosedFunctor)
          (on_io_thread : bool)
| EvClose
| EvSend (payload : list byte)
| EvRunPosted
| EvReadCompleted (ec : error_code) (bytes : list byte)
| EvWriteCompleted (ec : error_code).

(** The number of bytes the outstanding [async_read] asked for. *)
Definition read_request (c : Connection) : option nat :=
  match async_read_ c with
  | Some SizeRead => Some 4%nat
  | Some DataRead => Some (length (data_buffer (receiving_message_ c)))
  | None => None
  end.

(** One event.  An event that cannot happen in the state (no handler
    queued, no operation outstanding, a successful read of another length
    than the buffer's) leaves the connection as it is. *)
Definition step (ev : Event) : Action := fun c =>
  match ev with
  | EvStart m f t => Start m f t c
  | EvClose => Close c
  | EvSend payload => Send payload c
  | EvRunPosted =>
      match posted_ c with
      | [] => skip c
      | h :: hs => (modify (set_posted hs) ;; run_handler h) c
      end
  | EvReadCompleted ec bytes =>
      match async_read_ c with
      | None => skip c
      | Some SizeRead =>
          match ec, size_buffer_of_bytes bytes with
          | Some _, _ =>
              (modify (set_async_read None) ;;
               ReadSize_handler ec (r_size_buffer (receiving_message_ c))) c
          | None, Some sb =>
              (modify (set_async_read None) ;; ReadSize_handler None sb) c
          | None, None => skip c
          end
      | Some DataRead =>
          match ec with
          | Some _ => (modify (set_async_read None) ;; ReadData_handler ec bytes) c
          | None =>
              if (length bytes =? length (data_buffer (receiving_message_ c)))%nat
              then (modify (set_async_read None) ;; ReadData_handler None bytes) c
              else skip c
          end
      end
  | EvWriteCompleted ec =>
      if async_write_ c then
        match ec with
        | Some _ => (modify (set_async_write false) ;; DoSend_handler ec) c
        | None =>
            (modify (set_async_write false) ;;
             emit (WireBytes (match send_queue_ c with
                              | m :: _ => frame_bytes m
                              | [] => []
                              end)) ;;
             DoSend_handler None) c
        end
      else skip c
  end.

(** A run: the events one after the other, the effects in order. *)
Fixpoint run (evs : list Event) : Action :=
  match evs with
  | [] => skip
  | ev :: rest => step ev ;; run rest
  end.

(** *** A connected pair *)

(** The bytes a run has put on the socket, in order. *)
Fixpoint wire_of (es : list Effect) : list byte :=
  match es with
  | [] => []
  | WireBytes bs :: rest => bs ++ wire_of rest
  | _ :: rest => wire_of rest
  end.

(** The payloads a run has handed to the message callback, in order. *)
Fixpoint received_of (es : list Effect) : list (list byte) :=
  match es with
  | [] => []
  | MessageReceivedCalled _ payload :: rest => payload :: received_of rest
  | _ :: rest => received_of rest
  end.

(** A payload [EncodeData] accepts, and the bytes of its frame. *)
Definition valid_payload (payload : list byte) : Prop :=
  0 < Z.of_nat (length payload) <= MaxMessageSize.

Definition frame (payload : list byte) : list byte :=
  size_buffer_bytes (size_prefix (Z.of_nat (length payload))) ++ payload.

(** The sending side of an exchange: the payloads are passed to [Send],
    the executor runs the queued lambdas, every write completes. *)
Definition send_all (payloads : list (list byte)) : list Event :=
  map EvSend payloads ++
  replicate (length payloads) EvRunPosted ++
  replicate (length payloads) (EvWriteCompleted None).

(** The receiving side: the executor runs what is queued; otherwise the
    outstanding [async_read] completes as soon as the stream holds the
    bytes it asked for, and stays outstanding when it does not.  The
    result is the connection, the effects and the bytes not yet read. *)
Fixpoint receive_stream (fuel : nat) (wire : list byte) (c : Connection)
    : Connection * list Effect * list byte :=
  match fuel with
  | O => (c, [], wire)
  | S fuel' =>
      match posted_ c with
      | _ :: _ =>
          let '(c1, e1) := step EvRunPosted c in
          let '(c2, e2, rest) := receive_stream fuel' wire c1 in
          (c2, e1 ++ e2, rest)
      | [] =>
          match read_request c with
          | Some n =>
              if (n <=? length wire)%nat then
                let '(c1, e1) := step (EvReadCompleted None (take n wire)) c in
                let '(c2, e2, rest) := receive_stream fuel' (drop n wire) c1 in
                (c2, e1 ++ e2, rest)
              else (c, [], wire)
          | None => (c, [], wire)
          end
      end
  end.

(** *** Reading a trace *)

(** How many effects of a run satisfy a test. *)
Fixpoint tally (test : Effect -> bool) (es : list Effect) : nat :=
  match es with
  | [] => 0%nat
  | e :: rest => ((if test e then 1 else 0) + tally test rest)%nat
  end.

Definition is_DoCloseCalled (e : Effect) : bool :=
  match e with DoCloseCalled => true | _ => false end.
Definition is_SocketShutdownSend (e : Effect) : bool :=
  match e with SocketShutdownSend => true | _ => false end.
Definition is_SocketClosed (e : Effect) : bool :=
  match e with SocketClosed => true | _ => false end.
Definition is_ConnectionClosedCalled (e : Effect) : bool :=
  match e with ConnectionClosedCalled _ => true | _ => false end.
Definition is_callback (e : Effect) : bool :=
  match e with
  | ConnectionClosedCalled _ | MessageReceivedCalled _ _ => true
  | _ => false
  end.
Definition is_AsyncReadStarted (e : Effect) : bool :=
  match e with AsyncReadStarted _ => true | _ => false end.

Definition is_EvStart (ev : Event) : bool :=
  match ev with EvStart _ _ _ => true | _ => false end.
Definition is_HReadSize (h : Handler) : bool :=
  match h with HReadSize => true | _ => false end.

(** What [n] entries into [DoClose] add to a trace, seen from the state
    before them: the socket calls, and the callback when one is set. *)
Definition close_count (c : Connection) (n : nat) : nat :=
  if socket_close_flag_ c then 0%nat else n.

Definition callback_count (c : Connection) (n : nat) : nat :=
  if socket_close_flag_ c then 0%nat
  else match on_connection_closed_ c with Some _ => n | None => 0%nat end.

(** Nothing queued for sending and no write outstanding. *)
Definition idle (c : Connection) : Prop :=
  send_queue_ c = [] /\ posted_ c = [] /\ async_write_ c = false.

(** A write is outstanding exactly when the send queue is not empty. *)
Definition write_consistent (c : Connection) : Prop :=
  async_write_ c = match send_queue_ c with [] => false | _ :: _ => true end.

(** No read is outstanding and nothing can start one: [Start] has had its
    one effect and no [ReadSize] lambda is queued. *)
Definition reading_stopped (c : Connection) : Prop :=
  async_read_ c = None /\ start_flag_ c = true /\
  existsb is_HReadSize (posted_ c) = false.

(** The frames of the [Send] lambdas still waiting on the executor. *)
Fixpoint queued_enqueues (hs : list Handler) : list SendingMessage :=
  match hs with
  | [] => []
  | HEnqueue m :: rest => m :: queued_enqueues rest
  | _ :: rest => queued_enqueues rest
  end.

(** The bytes a connection has accepted for sending and not yet written:
    the send queue first, then what the waiting lambdas will append. *)
Definition backlog (c : Connection) : list byte :=
  concat (map frame_bytes (send_queue_ c ++ queued_enqueues (posted_ c))).

(** The frames of the calls of [Send] in a run that did not throw. *)
Fixpoint accepted (evs : list Event) : list SendingMessage :=
  match evs with
  | [] => []
  | EvSend payload :: rest =>
      match EncodeData payload with
      | Returned m => m :: accepted rest
      | _ => accepted rest
      end
  | _ :: rest => accepted rest
  end.

(** *** More ways to read a state and a trace *)

Definition is_AsyncWriteStarted (e : Effect) : bool :=
  match e with AsyncWriteStarted _ => true | _ => false end.

(** The payloads passed to [Send] in a run, in the order of the calls. *)
Fixpoint sent_payloads (evs : list Event) : list (list byte) :=
  match evs with
  | [] => []
  | EvSend p :: rest => p :: sent_payloads rest
  | _ :: rest => sent_payloads rest
  end.

(** The two tests of [EncodeData], as one boolean. *)
Definition acceptable (p : list byte) : bool :=
  (0 <? Z.of_nat (length p)) && (Z.of_nat (length p) <=? MaxMessageSize).

(** A payload the receiving side lets through: only the upper bound is
    tested in the handler of [ReadSize]. *)
Definition receivable (p : list byte) : Prop :=
  Z.of_nat (length p) <= MaxMessageSize.

Definition small_delivery (h : Handler) : bool :=
  match h with
  | HDeliver p => Z.of_nat (length p) <=? MaxMessageSize
  | _ => true
  end.

(** The inbound buffer of an outstanding body read and the payloads
    waiting for the message callback are within the maximum. *)
Definition inbound_bounded (c : Connection) : Prop :=
  (async_read_ c = Some DataRead ->
   Z.of_nat (length (data_buffer (receiving_message_ c))) <= MaxMessageSize) /\
  forallb small_delivery (posted_ c) = true.

(** Frames are queued and no write is outstanding. *)
Definition transmission_stalled (c : Connection) : Prop :=
  async_write_ c = false /\ send_queue_ c <> [].

(** A started connection that waits for a length prefix, nothing queued
    on the executor. *)
Definition awaiting_prefix (f : MessageReceivedFunctor) (c : Connection) : Prop :=
  posted_ c = [] /\ async_read_ c = Some SizeRead /\ on_message_received_ c = Some f.

End Framing.

End TcpConnection.

(** ** Named shared memory of the operating system *)

Module SharedMemory.

(** [boost::interprocess::shared_memory_object]: the system keeps a table
    from names to regions.  A region is known by a number that is never
    reused, so that two regions created under one name stay apart. *)
Definition Region : Set := nat.

Record Kernel : Type := {
  names : gmap string Region;
  next_region : Region
}.

Definition empty_kernel : Kernel := {| names := ∅; next_region := 0%nat |}.

(** [shared_memory_object::remove(name)]: unlink the name; the answer says
    whether there was one.  Never throws. *)
Definition remove (name : string) (k : Kernel) : bool * Kernel :=
  (bool_decide (is_Some (names k !! name)),
   {| names := delete name (names k); next_region := next_region k |}).

(** [shared_memory_object(create_only, name, read_write)]. *)
Definition create_only (name : string) (k : Kernel) : Outcome (Region * Kernel) :=
  match names k !! name with
  | Some _ => Threw already_exists_error
  | None =>
      Returned (next_region k,
                {| names := <[name := next_region k]> (names k);
                   next_region := S (next_region k) |})
  end.

(** [shared_memory_object(open_only, name, read_write)]. *)
Definition open_only (name : string) (k : Kernel) : Outcome (Region * Kernel) :=
  match names k !! name with
  | Some r => Returned (r, k)
  | None => Threw not_found_error
  end.

End SharedMemory.

(** ** SharedMemoryCommunication *)

Module SharedMemoryCommunication.

Import SharedMemory.

(** The [CreationTag] template argument. *)
Inductive CreationTag : Set :=
| SharedMemoryCreateOnly   (* MaidSharedMemoryOwner, PmidSharedMemoryOwner *)
| SharedMemoryOpenOnly.    (* MaidSharedMemoryUser, PmidSharedMemoryUser *)

(** Modelled from the spec: [detail::DecideDeletion<CreationTag>] is
    defined in queue_operations.h, which is not among the sources.  The
    constructor and the destructor both call it on the channel's name.
    Section 4.2: the creator "deletes any stale OS-level object of that
    name first" and "on destruction it deletes the named OS object"; the
    opener "does not delete it". *)
Definition DecideDeletion (tag : CreationTag) (name : string) (k : Kernel) : Kernel :=
  match tag with
  | SharedMemoryCreateOnly => snd (remove name k)
  | SharedMemoryOpenOnly => k
  end.

(** [new shared_memory_object(CreationTag(), name, read_write)]: the tag
    object selects the create-only or the open-only constructor. *)
Definition shared_memory_object (tag : CreationTag) (name : string) (k : Kernel)
    : Outcome (Region * Kernel) :=
  match tag with
  | SharedMemoryCreateOnly => create_only name k
  | SharedMemoryOpenOnly => open_only name k
  end.

Record Channel : Set := {
  creation_tag : CreationTag;
  shared_memory_name_ : string;
  shared_memory_ : Region;
  message_notifier_ : nat;
  receive_flag_ : bool
}.

(** The constructor.
<<
  assert(message_notifier_ && "A non-null function must be provided.");
  detail::DecideDeletion<CreationTag>()(shared_memory_name_->string());
  shared_memory_.reset(new shared_memory_object(CreationTag(), name, read_write));
  ... map the region, set up the queue, start the receiving thread
>> *)
Definition SharedMemoryCommunication (tag : CreationTag) (shared_memory_name : string)
    (message_notifier : option nat) (k : Kernel) : Outcome (Channel * Kernel) :=
  match message_notifier with
  | None => Aborted
  | Some notifier =>
      let k1 := DecideDeletion tag shared_memory_name k in
      match shared_memory_object tag shared_memory_name k1 with
      | Returned (region, k2) =>
          Returned ({| creation_tag := tag;
                       shared_memory_name_ := shared_memory_name;
                       shared_memory_ := region;
                       message_notifier_ := notifier;
                       receive_flag_ := true |}, k2)
      | Threw e => Threw e
      | Aborted => Aborted
      end
  end.

(** The destructor, as far as the name table goes:
    [detail::DecideDeletion<CreationTag>()(shared_memory_name_->string())]. *)
Definition destroy (ch : Channel) (k : Kernel) : Kernel :=
  DecideDeletion (creation_tag ch) (shared_memory_name_ ch) k.

Section Push.

(** [detail::IpcBidirectionalQueue], its slot size [kMessageSize] and
    [detail::PushMessageToQueue<CreationTag>().Push] are declared in
    queue_operations.h, which is not among the sources. *)
Variable Queue : Type.
Variable kMessageSize : Z.
Variable Push : CreationTag -> Queue -> list byte -> Outcome (bool * Queue).

(** Conversion to the 64-bit [size_t]. *)
Definition size_t (z : Z) : Z := z mod 2 ^ 64.

(** [SharedMemoryCommunication::PushMessage]
<<
  if (message.size() > size_t(detail::IpcBidirectionalQueue::kMessageSize))
    return false;
  return detail::PushMessageToQueue<CreationTag>().Push(std::ref(message_queue_), message);
>> *)
Definition PushMessage (tag : CreationTag) (message_queue_ : Queue)
    (message : list byte) : Outcome (bool * Queue) :=
  if Z.of_nat (length message) >? size_t kMessageSize
  then Returned (false, message_queue_)
  else Push tag message_queue_ message.

End Push.

End SharedMemoryCommunication.

(** ** The authenticated address register *)

Module AddressRegister.

Import SharedMemory.

(** [Identity]: the bytes of a name. [asymm::Signature]: the bytes of a
    signature.  Both are declared outside the sources (maidsafe/common);
    they are taken as byte strings of any length. *)
Abbreviation Identity := (list byte).
Abbreviation Signature := (list byte).

(** Modelled from the spec: [detail::SafeAddress] is declared in
    queue_operations.h, which is not among the sources.  Section 3: "a
    fixed-size byte buffer holding an address and a fixed-size byte buffer
    holding a signature, guarded by one mutex".  The code takes [sizeof]
    of the two members and copies into them with [memcpy]: they are
    character arrays.  The length of a buffer is its [sizeof]; [mutex]
    tells whether the lock is held. *)
Record SafeAddress : Set := {
  mutex : bool;
  address : list byte;
  signature : list byte
}.

Definition lock (sa : SafeAddress) : SafeAddress :=
  {| mutex := true; address := address sa; signature := signature sa |}.

Definition unlock (sa : SafeAddress) : SafeAddress :=
  {| mutex := false; address := address sa; signature := signature sa |}.

(** [memcpy(dst, src.c_str(), src.size())] into a character array. *)
Definition memcpy (dst src : list byte) : list byte :=
  src ++ drop (length src) dst.

Definition set_address (bs : list byte) (sa : SafeAddress) : SafeAddress :=
  {| mutex := mutex sa; address := bs; signature := signature sa |}.

Definition set_signature (bs : list byte) (sa : SafeAddress) : SafeAddress :=
  {| mutex := mutex sa; address := address sa; signature := bs |}.

(** The well-known name both classes use. *)
Definition shared_memory_name_ : string := "lifestuff_manager".

(** A C string: the bytes before the first zero byte. *)
Fixpoint c_str (memory : list byte) : list byte :=
  match memory with
  | [] => []
  | b :: rest => if bool_decide (b = x00) then [] else b :: c_str rest
  end.

(** [std::string(array)] for a character array: the array decays to
    [const char*] and is read as a C string.  The read stops at the first
    zero byte of the array; when the array holds none it runs on into the
    memory behind the array, of which [behind] are the bytes before the
    first zero byte. *)
Definition read_array (array behind : list byte) : list byte :=
  if bool_decide (x00 ∈ array) then c_str array else array ++ behind.

Section Register.

(** The signature scheme of maidsafe/common/rsa.h. *)
Variable PublicKey PrivateKey : Type.
Variable Sign : list byte -> PrivateKey -> Signature.
Variable CheckSignature : list byte -> Signature -> PublicKey -> bool.

(** [passport::Maid], as far as the register uses it. *)
Record Maid : Type := {
  name : Identity;
  private_key : PrivateKey;
  public_key : PublicKey
}.

(** [sizeof(safe_address_->address)] and [sizeof(safe_address_->signature)],
    fixed by the declaration of [detail::SafeAddress]. *)
Variable address_size signature_size : nat.

(** [SafeReadOnlySharedMemory::SafeReadOnlySharedMemory(const Maid&)]: the
    region is created exclusively, a [SafeAddress] is constructed in it,
    and the maid's name and a signature of the name are copied in.
<<
  shared_memory_(create_only, "lifestuff_manager", read_write)
  safe_address_ = new (mapped_region_->get_address()) detail::SafeAddress;
  asymm::Signature initial_signature(asymm::Sign(PlainText(maid.name().data),
                                                 maid.private_key()));
  assert(sizeof(safe_address_->address) == maid.name().data.string().size());
  memcpy(safe_address_->address, ...);
  assert(sizeof(safe_address_->signature) == initial_signature.string().size());
  memcpy(safe_address_->signature, ...);
>> *)
Definition SafeReadOnlySharedMemory (maid : Maid) (k : Kernel)
    : Outcome (SafeAddress * Kernel) :=
  match create_only shared_memory_name_ k with
  | Returned (_, k1) =>
      let sa := {| mutex := false;
                   address := replicate address_size x00;
                   signature := replicate signature_size x00 |} in
      let initial_signature := Sign (name maid) (private_key maid) in
      if (length (address sa) =? length (name maid))%nat then
        let sa1 := set_address (memcpy (address sa) (name maid)) sa in
        if (length (signature sa1) =? length initial_signature)%nat then
          Returned (set_signature (memcpy (signature sa1) initial_signature) sa1, k1)
        else Aborted
      else Aborted
  | Threw e => Threw e
  | Aborted => Aborted
  end.

(** [LifeStuffManagerAddressGetter::LifeStuffManagerAddressGetter()]: the
    reader opens the region that exists under the name. *)
Definition LifeStuffManagerAddressGetter (k : Kernel) : Outcome (Region * Kernel) :=
  open_only shared_memory_name_ k.

(** What lies behind the member [address] in the region, as far as a
    C-string read of [address] gets when the array holds no zero byte: the
    bytes before the first zero byte behind the array.  It follows from
    the layout of [detail::SafeAddress], whose declaration is not among
    the sources, and from what the region holds ([nil] when the byte right
    behind the array is zero). *)
Variable overrun : SafeAddress -> list byte.

(** [Identity(safe_address_->address)]: the member is a character array,
    the conversion to the string that [Identity] is built from reads it
    as a C string. *)
Definition read_address (sa : SafeAddress) : Identity :=
  read_array (address sa) (overrun sa).

(** [LifeStuffManagerAddressGetter::GetAddress]
<<
  bip::scoped_lock<bip::interprocess_mutex> lock(safe_address_->mutex);
  return passport::Maid::name_type(Identity(safe_address_->address));
>>
    The call is described from the moment the lock is taken. *)
Definition GetAddress (sa : SafeAddress) : Identity * SafeAddress :=
  let sa := lock sa in
  (read_address sa, unlock sa).

(** [SafeReadOnlySharedMemory::ChangeAddress]
<<
  bip::scoped_lock<bip::interprocess_mutex> lock(safe_address_->mutex);
  Identity current_address(safe_address_->address);
  if (current_address == new_address)
    return;
  if (asymm::CheckSignature(asymm::PlainText(new_address), new_signature,
                            maid_.public_key())) {
    assert(sizeof(safe_address_->address) == new_address.string().size());
    memcpy(safe_address_->address, ...);
    assert(sizeof(safe_address_->signature) == new_signature.string().size());
    memcpy(safe_address_->signature, ...);
  } else {
    ThrowError(AsymmErrors::invalid_signature);
  }
>>
    The region outlives the call whatever its outcome, so it is returned
    beside it.  The scoped lock is released on return and on throw; a
    failed assertion ends the process with the lock held. *)
Definition ChangeAddress (maid_ : Maid) (new_address : Identity)
    (new_signature : Signature) (sa : SafeAddress) : Outcome unit * SafeAddress :=
  let sa := lock sa in
  let current_address : Identity := read_address sa in
  if bool_decide (current_address = new_address) then (Returned tt, unlock sa)
  else if CheckSignature new_address new_signature (public_key maid_) then
    if (length (address sa) =? length new_address)%nat then
      let sa1 := set_address (memcpy (address sa) new_address) sa in
      if (length (signature sa1) =? length new_signature)%nat then
        let sa2 := set_signature (memcpy (signature sa1) new_signature) sa1 in
        (Returned tt, unlock sa2)
      else (Aborted, sa1)
    else (Aborted, sa)
  else (Threw invalid_signature, unlock sa).

(** *** The register over its life *)

(** The stored signature verifies for the stored address under the
    writer's public key. *)
Definition authentic (maid_ : Maid) (sa : SafeAddress) : Prop :=
  CheckSignature (address sa) (signature sa) (public_key maid_) = true.

(** The maid's name and its signature fill the two buffers: what the two
    assertions of the writer's constructor ask for. *)
Definition well_sized (maid : Maid) : Prop :=
  length (name maid) = address_size /\
  length (Sign (name maid) (private_key maid)) = signature_size.

(** Calls of [ChangeAddress] one after the other on the same region,
    whatever each of them returns or throws. *)
Fixpoint ChangeAddress_all (maid_ : Maid) (requests : list (list byte * list byte))
    (sa : SafeAddress) : SafeAddress :=
  match requests with
  | [] => sa
  | (new_address, new_signature) :: rest =>
      ChangeAddress_all maid_ rest (snd (ChangeAddress maid_ new_address new_signature sa))
  end.

(** The name table of the system together with the contents of the
    regions that have been created. *)
Record System : Type := {
  kernel : Kernel;
  regions : gmap Region SafeAddress
}.

(** A [SafeReadOnlySharedMemory] object: [maid_] and the mapped region. *)
Record Writer : Type := { writer_maid : Maid; writer_region : Region }.

(** The writer's constructor on the system: the region [create_only]
    hands out (the next one of the kernel) receives the [SafeAddress] the
    constructor builds. *)
Definition Writer_new (maid : Maid) (sys : System) : Outcome (Writer * System) :=
  match SafeReadOnlySharedMemory maid (kernel sys) with
  | Returned (sa, k1) =>
      Returned ({| writer_maid := maid; writer_region := next_region (kernel sys) |},
                {| kernel := k1;
                   regions := <[next_region (kernel sys) := sa]> (regions sys) |})
  | Threw e => Threw e
  | Aborted => Aborted
  end.

(** [SafeReadOnlySharedMemory::~SafeReadOnlySharedMemory]:
    [shared_memory_object::remove(shared_memory_name_.c_str())]. *)
Definition Writer_delete (w : Writer) (sys : System) : System :=
  {| kernel := snd (remove shared_memory_name_ (kernel sys)); regions := regions sys |}.

(** [ChangeAddress] of a writer object, on the region it has mapped. *)
Definition Writer_ChangeAddress (w : Writer) (new_address new_signature : list byte)
    (sys : System) : option (Outcome unit * System) :=
  match regions sys !! writer_region w with
  | Some sa =>
      let r := ChangeAddress (writer_maid w) new_address new_signature sa in
      Some (fst r, {| kernel := kernel sys;
                      regions := <[writer_region w := snd r]> (regions sys) |})
  | None => None
  end.

(** The reader's constructor on the system: the region it maps. *)
Definition Reader_new (sys : System) : Outcome Region :=
  match LifeStuffManagerAddressGetter (kernel sys) with
  | Returned (r, _) => Returned r
  | Threw e => Threw e
  | Aborted => Aborted
  end.

(** [GetAddress] of a reader object, on the region it has mapped. *)
Definition Reader_GetAddress (r : Region) (sys : System) : option (list byte * System) :=
  match regions sys !! r with
  | Some sa =>
      Some (fst (GetAddress sa),
            {| kernel := kernel sys;
               regions := <[r := snd (GetAddress sa)]> (regions sys) |})
  | None => None
  end.

End Register.

(** A toy signature scheme for the instances: the signature of a text is
    the text reversed, whatever the keys. *)
Definition toy_maid : Maid unit unit :=
  {| name := [x01; x02]; private_key := tt; public_key := tt |}.

Definition toy_Sign (text : list byte) (_ : unit) : list byte := rev text.

Definition toy_CheckSignature (text sig : list byte) (_ : unit) : bool :=
  bool_decide (sig = rev text).

Definition toy_register : SafeAddress :=
  {| mutex := false; address := [x01; x02]; signature := [x02; x01] |}.

(** A maid whose name has a zero byte, and its register. *)
Definition toy_maid_zero : Maid unit unit :=
  {| name := [x05; x00]; private_key := tt; public_key := tt |}.

Definition toy_register_zero : SafeAddress :=
  {| mutex := false; address := [x05; x00]; signature := [x00; x05] |}.

(** Two layouts for the instances: the signature array right behind the
    address array with a zero byte behind it, and a zero byte right behind
    the address array. *)
Definition signature_behind (sa : SafeAddress) : list byte := c_str (signature sa).

Definition zero_behind (sa : SafeAddress) : list byte := [].

(** The system before and after the toy writer is constructed. *)
Definition toy_system : System :=
  {| kernel := empty_kernel; regions := ∅ |}.

Definition toy_writer : Writer unit unit :=
  {| writer_maid := toy_maid; writer_region := 0%nat |}.

Definition toy_system_1 : System :=
  {| kernel := {| names := <[shared_memory_name_ := 0%nat]> ∅; next_region := 1%nat |};
     regions := <[0%nat := toy_register]> ∅ |}.

End AddressRegister.

(** ** The vault configuration *)

Module VaultConfig.

Section Config.

(** The types of passport, routing and boost the file only passes
    around, and the two operations it calls on them. *)
Variable Pmid PublicPmid KeyChain Path DiskUsage BootstrapContacts TestConfig : Type.

(** [key_chain.pmid] of a [passport::detail::AnmaidToPmid]. *)
Variable chain_pmid : KeyChain -> Pmid.

(** [passport::PublicPmid(pmid)]. *)
Variable public_part : Pmid -> PublicPmid.

(** [passport::detail::ReadKeyChainList(keys_path)]. *)
Variable ReadKeyChainList : Path -> list KeyChain.

(** A value-initialised [test_config]. *)
Variable default_test_config : TestConfig.

(** [struct VaultConfig], built with TESTING defined. *)
Record VaultConfig : Type := {
  pmid : Pmid;
  vault_dir : Path;
  max_disk_usage : DiskUsage;
  test_config : TestConfig;
  bootstrap_contacts : BootstrapContacts
}.

(** [VaultConfig::VaultConfig(pmid_in, vault_dir_in, max_disk_usage_in,
    bootstrap_contacts_in)]. *)
Definition make (pmid_in : Pmid) (vault_dir_in : Path) (max_disk_usage_in : DiskUsage)
    (bootstrap_contacts_in : BootstrapContacts) : VaultConfig :=
  {| pmid := pmid_in; vault_dir := vault_dir_in; max_disk_usage := max_disk_usage_in;
     test_config := default_test_config; bootstrap_contacts := bootstrap_contacts_in |}.

(** [VaultConfig::VaultConfig(const VaultConfig& other)]. *)
Definition copy (other : VaultConfig) : VaultConfig :=
  {| pmid := pmid other; vault_dir := vault_dir other;
     max_disk_usage := max_disk_usage other; test_config := test_config other;
     bootstrap_contacts := bootstrap_contacts other |}.

(** [swap(VaultConfig& lhs, VaultConfig& rhs)]: the five members are
    swapped one by one; the result is the new [lhs] and the new [rhs]. *)
Definition swap (lhs rhs : VaultConfig) : VaultConfig * VaultConfig :=
  ({| pmid := pmid rhs; vault_dir := vault_dir rhs;
      max_disk_usage := max_disk_usage rhs; test_config := test_config rhs;
      bootstrap_contacts := bootstrap_contacts rhs |},
   {| pmid := pmid lhs; vault_dir := vault_dir lhs;
      max_disk_usage := max_disk_usage lhs; test_config := test_config lhs;
      bootstrap_contacts := bootstrap_contacts lhs |}).

(** [VaultConfig& VaultConfig::operator=(VaultConfig other)]: the argument
    is a copy, which is swapped with the object itself; the object is
    returned. *)
Definition assign (this other : VaultConfig) : VaultConfig :=
  fst (swap this (copy other)).

(** What the two functions on key files can throw. *)
Inductive Thrown : Set :=
| common_error (e : Error)
| std_out_of_range.          (* std::vector::at *)

(** [GetPmidFromKeysFile]
<<
  std::vector<AnmaidToPmid> key_chains(ReadKeyChainList(keys_path));
  if (identity_index >= key_chains.size())
    BOOST_THROW_EXCEPTION(MakeError(CommonErrors::invalid_parameter));
  return passport::Pmid(key_chains.at(identity_index).pmid);
>> *)
Definition GetPmidFromKeysFile (keys_path : Path) (identity_index : nat)
    : Pmid + Thrown :=
  let key_chains := ReadKeyChainList keys_path in
  if (length key_chains <=? identity_index)%nat
  then inr (common_error invalid_parameter)
  else match key_chains !! identity_index with
       | Some key_chain => inl (chain_pmid key_chain)
       | None => inr std_out_of_range
       end.

(** [GetPublicPmidsFromKeysFile]
<<
  std::vector<passport::PublicPmid> public_pmids;
  for (auto& key_chain : key_chains)
    public_pmids.push_back(passport::PublicPmid(key_chain.pmid));
  return public_pmids;
>> *)
Definition GetPublicPmidsFromKeysFile (keys_path : Path) : list PublicPmid :=
  fold_left (fun public_pmids key_chain =>
               public_pmids ++ [public_part (chain_pmid key_chain)])
            (ReadKeyChainList keys_path) [].

End Config.

End VaultConfig.

(* ===================================================================== *)
(** * Part II: theorems                                                    *)
(* ===================================================================== *)

(** ** Bytes and 32-bit arithmetic *)

Lemma byte_value_range (b : byte) : 0 <= byte_value b < 256.
Proof.
  unfold byte_value. pose proof (Byte.to_N_bounded b). lia.
Qed.

Lemma byte_value_char_of_Z (z : Z) : byte_value (char_of_Z z) = z mod 256.
Proof.
  unfold char_of_Z, byte_value.
  assert (Hr : 0 <= z mod 256 < 256) by (apply Z.mod_pos_bound; lia).
  destruct (Byte.of_N (Z.to_N (z mod 256))) as [b|] eqn:E.
  - apply Byte.to_of_N in E. rewrite E. lia.
  - apply Byte.of_N_None_iff in E. lia.
Qed.

Lemma byte_value_inj (a b : byte) : byte_value a = byte_value b -> a = b.
Proof.
  unfold byte_value. intros H.
  assert (E : Byte.to_N a = Byte.to_N b) by lia.
  pose proof (Byte.of_to_N a) as Ha. pose proof (Byte.of_to_N b) as Hb.
  rewrite E in Ha. congruence.
Qed.

Lemma int32_congr (z : Z) : int32 z mod 2 ^ 32 = z mod 2 ^ 32.
Proof.
  unfold int32.
  rewrite Zminus_mod, Z.mod_mod by lia.
  rewrite <- Zminus_mod. f_equal. lia.
Qed.

Lemma int32_small (z : Z) : - 2 ^ 31 <= z < 2 ^ 31 -> int32 z = z.
Proof.
  intros H. unfold int32. rewrite Z.mod_small by lia. lia.
Qed.

(** A value whose low eight bits are clear absorbs a byte by addition. *)
Lemma lor_low_byte (w v : Z) :
  w mod 256 = 0 -> 0 <= v < 256 -> Z.lor w v = w + v.
Proof.
  intros Hw Hv.
  assert (Hland : Z.land w v = 0).
  { apply Z.bits_inj'. intros n Hn.
    rewrite Z.land_spec, Z.bits_0.
    destruct (Z.lt_ge_cases n 8) as [Hlt|Hge].
    - replace (Z.testbit w n) with false; [reflexivity|].
      symmetry. change 256 with (2 ^ 8) in Hw.
      rewrite <- (Z.mod_pow2_bits_low w 8 n) by lia.
      rewrite Hw. apply Z.bits_0.
    - replace (Z.testbit v n) with false; [apply andb_false_r|].
      symmetry. destruct (Z.eq_dec v 0) as [->|Hnz]; [apply Z.bits_0|].
      apply Z.bits_above_log2; [lia|].
      apply Z.log2_lt_pow2; [lia|].
      apply Z.lt_le_trans with (2 ^ 8); [lia|].
      apply Z.pow_le_mono_r; lia. }
  rewrite <- Z.lxor_lor by exact Hland.
  symmetry. apply Z.add_nocarry_lxor. exact Hland.
Qed.

Lemma shl8_mod_256 (x : Z) : shl8 x mod 256 = 0.
Proof.
  unfold shl8, int32. rewrite Z.shiftl_mul_pow2 by lia.
  change (2 ^ 8) with 256.
  pose proof (Z.mod_pos_bound (x * 256 + 2 ^ 31) (2 ^ 32) ltac:(lia)) as Hb.
  pose proof (Z.div_mod (x * 256 + 2 ^ 31) (2 ^ 32) ltac:(lia)) as Hd.
  set (q := (x * 256 + 2 ^ 31) / 2 ^ 32) in *.
  set (r := (x * 256 + 2 ^ 31) mod 2 ^ 32) in *.
  replace (r - 2 ^ 31) with ((x - q * 2 ^ 24) * 256) by lia.
  apply Z.mod_mul. lia.
Qed.

Lemma shl8_small (x : Z) : 0 <= x < 2 ^ 23 -> shl8 x = x * 256.
Proof.
  intros H. unfold shl8. rewrite Z.shiftl_mul_pow2 by lia.
  change (2 ^ 8) with 256. apply int32_small. lia.
Qed.

(** ** Framing: the length prefix *)

Module TcpConnectionFacts.

Import TcpConnection.

(** With unsigned elements the reassembly is the big-endian number. *)
Lemma decode_size_unsigned (b0 b1 b2 b3 : byte) :
  decode_size unsigned_char (b0, b1, b2, b3) =
  ((byte_value b0 * 256 + byte_value b1) * 256 + byte_value b2) * 256
  + byte_value b3.
Proof.
  unfold decode_size, promote.
  pose proof (byte_value_range b0) as H0. pose proof (byte_value_range b1) as H1.
  pose proof (byte_value_range b2) as H2. pose proof (byte_value_range b3) as H3.
  rewrite (lor_low_byte (shl8 (byte_value b0))) by (auto using shl8_mod_256).
  rewrite (shl8_small (byte_value b0)) by lia.
  rewrite (lor_low_byte (shl8 _) (byte_value b2)) by (auto using shl8_mod_256).
  rewrite (shl8_small (_ + byte_value b1)) by lia.
  rewrite (lor_low_byte (shl8 _) (byte_value b3)) by (auto using shl8_mod_256).
  set (x := (byte_value b0 * 256 + byte_value b1) * 256 + byte_value b2).
  unfold uint32, shl8. rewrite Z.shiftl_mul_pow2 by lia. change (2 ^ 8) with 256.
  rewrite Zplus_mod, int32_congr, <- Zplus_mod.
  apply Z.mod_small. subst x. lia.
Qed.

(** The four bytes [EncodeData] writes for a size below 2^32 add up to it. *)
Lemma big_endian_digits (n : Z) :
  0 <= n < 2 ^ 32 ->
  (((Z.shiftr n 24 mod 256) * 256 + Z.shiftr n 16 mod 256) * 256
   + Z.shiftr n 8 mod 256) * 256 + Z.shiftr n 0 mod 256 = n.
Proof.
  intros Hn. rewrite !Z.shiftr_div_pow2 by lia.
  change (2 ^ 24) with 16777216. change (2 ^ 16) with 65536.
  change (2 ^ 8) with 256. change (2 ^ 0) with 1. change (2 ^ 32) with 4294967296 in Hn.
  Z.div_mod_to_equations. lia.
Qed.

(** *** Traces *)

Lemma tally_app (test : Effect -> bool) (es1 es2 : list Effect) :
  tally test (es1 ++ es2) = (tally test es1 + tally test es2)%nat.
Proof.
  induction es1 as [|e es1 IH]; simpl; [reflexivity|]. rewrite IH. lia.
Qed.

Lemma wire_of_app (es1 es2 : list Effect) :
  wire_of (es1 ++ es2) = wire_of es1 ++ wire_of es2.
Proof.
  induction es1 as [|e es1 IH]; simpl; [reflexivity|].
  destruct e; rewrite ?IH, <- ?app_assoc; reflexivity.
Qed.

Lemma received_of_app (es1 es2 : list Effect) :
  received_of (es1 ++ es2) = received_of es1 ++ received_of es2.
Proof.
  induction es1 as [|e es1 IH]; simpl; [reflexivity|].
  destruct e; rewrite ?IH; reflexivity.
Qed.

Lemma queued_enqueues_app (hs1 hs2 : list Handler) :
  queued_enqueues (hs1 ++ hs2) = queued_enqueues hs1 ++ queued_enqueues hs2.
Proof.
  induction hs1 as [|h hs1 IH]; simpl; [reflexivity|].
  destruct h; rewrite ?IH; reflexivity.
Qed.

(** Unfold the member functions down to the state and the trace. *)
Ltac run_action :=
  unfold step, Start, Close, Send, Enqueue, Deliver, run_handler, dispatch_ReadSize,
    ReadSize_handler, ReadData_handler, DoSend_handler, DoSend, ReadSize, ReadData,
    DoClose, post, andThen, modify, emit, skip in *.

(** Split on what the code branches on. *)
Ltac split_cases :=
  repeat (simpl;
    match goal with
    | |- context [match ?x with _ => _ end] => is_var x; destruct x
    | |- context [size_buffer_of_bytes ?b] => destruct (size_buffer_of_bytes b)
    | |- context [decode_size ?k ?s >? ?m] => destruct (decode_size k s >? m)
    | |- context [EncodeData ?m ?p] => destruct (EncodeData m p)
    | |- context [(length ?a =? ?b)%nat] => destruct (length a =? b)%nat
    end).

Ltac by_cases := repeat (progress (run_action; split_cases)); simpl.

Section Runs.

Variable MaxMessageSize : Z.
Variable size_elem : char_kind.

Local Abbreviation step := (TcpConnection.step MaxMessageSize size_elem).
Local Abbreviation run := (TcpConnection.run MaxMessageSize size_elem).

Lemma run_cons (ev : Event) (rest : list Event) (c : Connection) :
  run (ev :: rest) c =
  (fst (run rest (fst (step ev c))),
   snd (step ev c) ++ snd (run rest (fst (step ev c)))).
Proof.
  simpl. unfold andThen.
  destruct (step ev c) as [c1 e1]. simpl.
  destruct (run rest c1) as [c2 e2]. reflexivity.
Qed.

Lemma run_app (evs1 evs2 : list Event) (c : Connection) :
  run (evs1 ++ evs2) c =
  (fst (run evs2 (fst (run evs1 c))),
   snd (run evs1 c) ++ snd (run evs2 (fst (run evs1 c)))).
Proof.
  revert c. induction evs1 as [|ev evs1 IH]; intros c.
  - simpl. destruct (run evs2 c). reflexivity.
  - rewrite <- app_comm_cons, !run_cons, IH. simpl.
    rewrite app_assoc. reflexivity.
Qed.

(** *** Closing *)

(** One event enters [DoClose] at most once; the shutdown sequence and the
    callback run then, unless the flag was already set. *)
Lemma step_close (ev : Event) (c : Connection) :
  let c' := fst (step ev c) in
  let es := snd (step ev c) in
  (tally is_DoCloseCalled es <= 1)%nat /\
  socket_close_flag_ c' = socket_close_flag_ c || (0 <? tally is_DoCloseCalled es)%nat /\
  tally is_SocketShutdownSend es = close_count c (tally is_DoCloseCalled es) /\
  tally is_SocketClosed es = close_count c (tally is_DoCloseCalled es) /\
  tally is_ConnectionClosedCalled es = callback_count c (tally is_DoCloseCalled es).
Proof.
  destruct c as [sf cf sk om oc rm q ps ar aw].
  destruct cf, oc, ev; by_cases;
    (repeat split; unfold close_count, callback_count; simpl; first [reflexivity | lia]).
Qed.

(** Only the first [Start] touches the callbacks. *)
Lemma step_keeps_callbacks (ev : Event) (c : Connection) :
  start_flag_ c = true \/ is_EvStart ev = false ->
  let c' := fst (step ev c) in
  start_flag_ c' = start_flag_ c /\
  on_connection_closed_ c' = on_connection_closed_ c /\
  on_message_received_ c' = on_message_received_ c.
Proof.
  destruct c as [sf cf sk om oc rm q ps ar aw].
  intros [H|H]; simpl in H; subst; destruct cf, ev; try discriminate H;
    by_cases; auto.
Qed.

Lemma step_no_callback (ev : Event) (c : Connection) :
  on_message_received_ c = None -> on_connection_closed_ c = None ->
  is_EvStart ev = false ->
  tally is_callback (snd (step ev c)) = 0%nat.
Proof.
  destruct c as [sf cf sk om oc rm q ps ar aw]. simpl.
  intros -> -> H; destruct cf, ev; try discriminate H; by_cases; auto.
Qed.

(** However often [DoClose] is entered in a run, the shutdown sequence runs
    once, and so does the callback that was registered. *)
Lemma run_close_once (evs : list Event) (c : Connection) :
  start_flag_ c = true \/ forallb (fun ev => negb (is_EvStart ev)) evs = true ->
  let c' := fst (run evs c) in
  let es := snd (run evs c) in
  let once := if (0 <? tally is_DoCloseCalled es)%nat then 1%nat else 0%nat in
  on_connection_closed_ c' = on_connection_closed_ c /\
  on_message_received_ c' = on_message_received_ c /\
  socket_close_flag_ c' = socket_close_flag_ c || (0 <? tally is_DoCloseCalled es)%nat /\
  tally is_SocketShutdownSend es = close_count c once /\
  tally is_SocketClosed es = close_count c once /\
  tally is_ConnectionClosedCalled es = callback_count c once.
Proof.
  revert c. induction evs as [|ev rest IH]; intros c Hs.
  - simpl. unfold close_count, callback_count.
    destruct (socket_close_flag_ c), (on_connection_closed_ c); repeat split; auto.
  - rewrite run_cons. cbn [fst snd].
    destruct (step_close ev c) as (Hn & Hf & Hsd & Hcl & Hcb).
    assert (Hev : start_flag_ c = true \/ is_EvStart ev = false).
    { destruct Hs as [Hs|Hs]; [left; exact Hs|right].
      simpl in Hs. apply andb_prop in Hs as [Hs _].
      destruct (is_EvStart ev); [discriminate|reflexivity]. }
    destruct (step_keeps_callbacks ev c Hev) as (Hs1 & Hoc1 & Hom1).
    set (c1 := fst (step ev c)) in *.
    set (e1 := snd (step ev c)) in *.
    assert (Hrest : start_flag_ c1 = true
                    \/ forallb (fun ev => negb (is_EvStart ev)) rest = true).
    { destruct Hs as [Hs|Hs]; [left; congruence|right].
      simpl in Hs. apply andb_prop in Hs as [_ Hs]. exact Hs. }
    specialize (IH c1 Hrest). cbn zeta in IH.
    destruct IH as (IHoc & IHom & IHf & IHsd & IHcl & IHcb).
    set (e2 := snd (run rest c1)) in *.
    rewrite !tally_app. rewrite IHsd, IHcl, IHcb, Hsd, Hcl, Hcb, IHf, Hf, IHoc, IHom, Hoc1, Hom1.
    unfold close_count, callback_count in *. rewrite Hf, Hoc1.
    destruct (socket_close_flag_ c), (on_connection_closed_ c);
    destruct (tally is_DoCloseCalled e1) as [|[|n1]]; try lia;
    destruct (tally is_DoCloseCalled e2) as [|n2]; simpl; repeat split; auto.
Qed.

Lemma run_no_callback (evs : list Event) (c : Connection) :
  on_message_received_ c = None -> on_connection_closed_ c = None ->
  forallb (fun ev => negb (is_EvStart ev)) evs = true ->
  tally is_callback (snd (run evs c)) = 0%nat.
Proof.
  revert c. induction evs as [|ev rest IH]; intros c Hm Hc Hevs; [reflexivity|].
  simpl in Hevs. apply andb_prop in Hevs as [Hev Hrest].
  assert (Hev' : is_EvStart ev = false) by (destruct (is_EvStart ev); [discriminate|reflexivity]).
  rewrite run_cons. cbn [snd]. rewrite tally_app.
  rewrite (step_no_callback ev c Hm Hc Hev').
  destruct (step_keeps_callbacks ev c (or_intror Hev')) as (_ & Hc1 & Hm1).
  rewrite IH; [reflexivity| congruence | congruence | exact Hrest].
Qed.

(** *** Reading *)

(** Once reading has stopped, no event starts an [async_read] again. *)
Lemma step_reading_stopped (ev : Event) (c : Connection) :
  reading_stopped c ->
  reading_stopped (fst (step ev c)) /\
  tally is_AsyncReadStarted (snd (step ev c)) = 0%nat.
Proof.
  destruct c as [sf cf sk om oc rm q ps ar aw].
  unfold reading_stopped. simpl. intros (-> & -> & Hps).
  destruct cf, ev; by_cases; simpl in *; try discriminate;
    rewrite ?List.existsb_app, ?Hps; auto.
Qed.

Lemma run_reading_stopped (evs : list Event) (c : Connection) :
  reading_stopped c ->
  tally is_AsyncReadStarted (snd (run evs c)) = 0%nat.
Proof.
  revert c. induction evs as [|ev rest IH]; intros c Hc; [reflexivity|].
  rewrite run_cons. cbn [snd]. rewrite tally_app.
  destruct (step_reading_stopped ev c Hc) as [Hc1 ->].
  rewrite (IH _ Hc1). reflexivity.
Qed.

(** *** Sending *)

Local Abbreviation accepted := (TcpConnection.accepted MaxMessageSize).

Lemma step_fifo (ev : Event) (c : Connection) :
  wire_of (snd (step ev c)) ++ backlog (fst (step ev c)) =
  backlog c ++ concat (map frame_bytes (accepted [ev])).
Proof.
  destruct c as [sf cf sk om oc rm q ps ar aw]. unfold backlog.
  destruct ev; by_cases;
    repeat first [rewrite queued_enqueues_app | rewrite map_app | rewrite concat_app
                 | progress simpl | rewrite app_nil_r | rewrite <- app_assoc];
    reflexivity.
Qed.

Lemma accepted_app (evs1 evs2 : list Event) :
  accepted (evs1 ++ evs2) = accepted evs1 ++ accepted evs2.
Proof.
  induction evs1 as [|ev evs1 IH]; simpl; [reflexivity|].
  destruct ev; rewrite ?IH; try reflexivity.
  destruct (EncodeData MaxMessageSize payload); rewrite ?IH; reflexivity.
Qed.

(** Whatever happens, the socket has carried a prefix of the accepted
    frames, in the order of the calls of [Send]; the rest is waiting. *)
Lemma run_fifo (evs : list Event) (c : Connection) :
  wire_of (snd (run evs c)) ++ backlog (fst (run evs c)) =
  backlog c ++ concat (map frame_bytes (accepted evs)).
Proof.
  revert c. induction evs as [|ev rest IH]; intros c.
  - simpl. rewrite app_nil_r. reflexivity.
  - rewrite run_cons. cbn [fst snd].
    rewrite wire_of_app, <- app_assoc, IH, app_assoc, step_fifo.
    change (ev :: rest) with ([ev] ++ rest).
    rewrite accepted_app, map_app, concat_app, app_assoc. reflexivity.
Qed.

Lemma EncodeData_valid (p : list byte) :
  valid_payload MaxMessageSize p ->
  EncodeData MaxMessageSize p =
  Returned {| size_buffer := size_prefix (Z.of_nat (length p)); data := p |}.
Proof.
  unfold valid_payload, EncodeData. intros Hp.
  destruct (Z.eqb_spec (Z.of_nat (length p)) 0); [lia|].
  destruct (Z.gtb_spec (Z.of_nat (length p)) MaxMessageSize); [lia|reflexivity].
Qed.

Lemma EncodeData_invalid (p : list byte) :
  length p = 0%nat \/ Z.of_nat (length p) > MaxMessageSize ->
  EncodeData MaxMessageSize p =
  Threw (if (length p =? 0)%nat then invalid_string_size else ipc_message_too_large).
Proof.
  intros H. unfold EncodeData.
  destruct (Nat.eqb_spec (length p) 0) as [E|E].
  - rewrite E. reflexivity.
  - destruct (Z.eqb_spec (Z.of_nat (length p)) 0) as [E'|E']; [lia|].
    destruct (Z.gtb_spec (Z.of_nat (length p)) MaxMessageSize); [reflexivity|lia].
Qed.

Lemma run_sends (payloads : list (list byte)) (c : Connection) :
  Forall (valid_payload MaxMessageSize) payloads ->
  let ms := map (fun p => {| size_buffer := size_prefix (Z.of_nat (length p));
                             data := p |}) payloads in
  accepted (map EvSend payloads) = ms /\
  fst (run (map EvSend payloads) c) = set_posted (posted_ c ++ map HEnqueue ms) c.
Proof.
  intros H. revert c. induction H as [|p ps Hp Hps IH]; intros c.
  - simpl. rewrite app_nil_r. destruct c; auto.
  - cbn zeta in *. rewrite map_cons, run_cons. cbn [fst snd].
    pose proof (EncodeData_valid p Hp) as E.
    split.
    + simpl. rewrite E. f_equal. apply (IH c).
    + destruct (IH (fst (step (EvSend p) c))) as [_ ->].
      unfold TcpConnection.step, Send. rewrite E. destruct c; simpl.
      unfold set_posted; simpl. rewrite <- app_assoc. reflexivity.
Qed.

Lemma step_run_enqueue (m : SendingMessage) (hs : list Handler) (c : Connection) :
  posted_ c = HEnqueue m :: hs ->
  let c' := fst (step EvRunPosted c) in
  posted_ c' = hs /\ send_queue_ c' = send_queue_ c ++ [m] /\
  (write_consistent c -> write_consistent c').
Proof.
  destruct c as [sf cf sk om oc rm q ps ar aw]. simpl. intros ->.
  unfold write_consistent. by_cases; repeat split; auto; intros; subst; reflexivity.
Qed.

Lemma step_write_completed (m : SendingMessage) (q : list SendingMessage)
    (c : Connection) :
  send_queue_ c = m :: q -> async_write_ c = true ->
  let c' := fst (step (EvWriteCompleted None) c) in
  send_queue_ c' = q /\ posted_ c' = posted_ c /\ write_consistent c'.
Proof.
  destruct c as [sf cf sk om oc rm q0 ps ar aw]. simpl. intros -> ->.
  unfold write_consistent. by_cases; repeat split; auto.
Qed.

Lemma run_enqueues (ms : list SendingMessage) (c : Connection) :
  posted_ c = map HEnqueue ms -> write_consistent c ->
  let c' := fst (run (replicate (length ms) EvRunPosted) c) in
  posted_ c' = [] /\ send_queue_ c' = send_queue_ c ++ ms /\ write_consistent c'.
Proof.
  revert c. induction ms as [|m ms IH]; intros c Hp Hw.
  - simpl. rewrite app_nil_r. auto.
  - cbn zeta. change (replicate (length (m :: ms)) EvRunPosted)
      with (EvRunPosted :: replicate (length ms) EvRunPosted).
    rewrite run_cons. cbn [fst].
    destruct (step_run_enqueue m (map HEnqueue ms) c Hp) as (Hp1 & Hq1 & Hw1).
    destruct (IH (fst (step EvRunPosted c)) Hp1 (Hw1 Hw)) as (H1 & H2 & H3).
    split; [exact H1|]. split; [|exact H3].
    rewrite H2, Hq1, <- app_assoc. reflexivity.
Qed.

Lemma run_writes (n : nat) (c : Connection) :
  length (send_queue_ c) = n -> write_consistent c ->
  let c' := fst (run (replicate n (EvWriteCompleted None)) c) in
  send_queue_ c' = [] /\ posted_ c' = posted_ c.
Proof.
  revert c. induction n as [|n IH]; intros c Hl Hw.
  - simpl. destruct (send_queue_ c); [auto|discriminate].
  - cbn zeta. change (replicate (S n) (EvWriteCompleted None))
      with (EvWriteCompleted None :: replicate n (EvWriteCompleted None)).
    rewrite run_cons. cbn [fst].
    destruct (send_queue_ c) as [|m q] eqn:Hq; [discriminate|].
    assert (Ha : async_write_ c = true).
    { unfold write_consistent in Hw. rewrite Hq in Hw. exact Hw. }
    destruct (step_write_completed m q c Hq Ha) as (Hq1 & Hp1 & Hw1).
    simpl in Hl. injection Hl as Hl.
    destruct (IH (fst (step (EvWriteCompleted None) c))) as (H1 & H2);
      [congruence | exact Hw1 |].
    split; [exact H1|congruence].
Qed.

Lemma accepted_replicate (n : nat) (ev : Event) :
  (forall p, ev <> EvSend p) -> accepted (replicate n ev) = [].
Proof.
  intros Hne. induction n as [|n IHn]; simpl; [reflexivity|].
  destruct ev; try exact IHn. exfalso. eapply Hne. reflexivity.
Qed.

(** A connection with nothing to send, given payloads it accepts, the
    executor running and the writes completing, puts exactly their frames
    on the socket, in the order of the calls. *)
Lemma send_all_wire (payloads : list (list byte)) (c : Connection) :
  idle c ->
  Forall (valid_payload MaxMessageSize) payloads ->
  wire_of (snd (run (send_all payloads) c)) = concat (map frame payloads).
Proof.
  intros (Hq & Hp & Ha) Hps.
  pose proof (run_fifo (send_all payloads) c) as Hfifo.
  destruct (run_sends payloads c Hps) as [Hacc Hc1]. cbn zeta in *.
  set (ms := map (fun p => {| size_buffer := size_prefix (Z.of_nat (length p));
                              data := p |}) payloads) in *.
  assert (Hidle : backlog (fst (run (send_all payloads) c)) = []).
  { unfold send_all. rewrite run_app. cbn [fst]. rewrite run_app. cbn [fst].
    rewrite Hc1.
    set (c1 := set_posted (posted_ c ++ map HEnqueue ms) c).
    assert (Hp1 : posted_ c1 = map HEnqueue ms).
    { subst c1. simpl. rewrite Hp. reflexivity. }
    assert (Hw1 : write_consistent c1).
    { subst c1. unfold write_consistent. simpl. rewrite Hq, Ha. reflexivity. }
    replace (length payloads) with (length ms) by (subst ms; apply length_map).
    destruct (run_enqueues ms c1 Hp1 Hw1) as (Hp2 & Hq2 & Hw2).
    set (c2 := fst (run (replicate (length ms) EvRunPosted) c1)) in *.
    destruct (run_writes (length ms) c2) as (Hq3 & Hp3).
    - rewrite Hq2. subst c1. simpl. rewrite Hq. reflexivity.
    - exact Hw2.
    - unfold backlog. rewrite Hq3, Hp3, Hp2. reflexivity. }
  rewrite Hidle, app_nil_r in Hfifo. rewrite Hfifo.
  unfold backlog. rewrite Hq, Hp. simpl.
  unfold send_all. rewrite !accepted_app, Hacc.
  rewrite !accepted_replicate by (intros; discriminate).
  rewrite !app_nil_r. subst ms. rewrite map_map. reflexivity.
Qed.

(** *** The claims about closing, reading and rejecting *)

(** The handler of a size read whose value is too large. *)
Lemma step_oversized_prefix (c : Connection) (sb : SizeBuffer) :
  async_read_ c = Some SizeRead ->
  decode_size size_elem sb > MaxMessageSize ->
  let r := step (EvReadCompleted None (size_buffer_bytes sb)) c in
  tally is_DoCloseCalled (snd r) = 1%nat /\
  tally is_AsyncReadStarted (snd r) = 0%nat /\
  data_buffer (receiving_message_ (fst r)) = [] /\
  async_read_ (fst r) = None /\
  start_flag_ (fst r) = start_flag_ c /\
  posted_ (fst r) = posted_ c.
Proof.
  intros Ha Hgt. cbn zeta.
  destruct c as [sf cf sk om oc rm q ps ar aw]. simpl in Ha. subst ar.
  unfold TcpConnection.step. cbn [async_read_].
  assert (Hsb : size_buffer_of_bytes (size_buffer_bytes sb) = Some sb)
    by (destruct sb as [[[b0 b1] b2] b3]; reflexivity).
  rewrite Hsb. unfold ReadSize_handler, andThen, modify. cbn [fst snd].
  destruct (Z.gtb_spec (decode_size size_elem sb) MaxMessageSize) as [_|Hle]; [|lia].
  destruct cf; by_cases; repeat split; auto.
Qed.

(** Claim C4.  When the outstanding size read completes with a length
    prefix whose reassembled value is greater than [MaxMessageSize], the
    handler enters [DoClose], so the connection is closed (the socket is
    shut down and closed unless it already was); the inbound data buffer
    is emptied; the handler starts no [async_read], and, [Start] having
    had its effect and no [ReadSize] lambda being queued, nothing that
    happens afterwards starts one either. *)
Theorem oversized_prefix_closes_without_body_read
    (c : Connection) (sb : SizeBuffer) :
  async_read_ c = Some SizeRead ->
  decode_size size_elem sb > MaxMessageSize ->
  let r := step (EvReadCompleted None (size_buffer_bytes sb)) c in
  tally is_DoCloseCalled (snd r) = 1%nat /\
  socket_close_flag_ (fst r) = true /\
  tally is_SocketShutdownSend (snd r) = close_count c 1 /\
  tally is_SocketClosed (snd r) = close_count c 1 /\
  data_buffer (receiving_message_ (fst r)) = [] /\
  async_read_ (fst r) = None /\
  tally is_AsyncReadStarted (snd r) = 0%nat /\
  (start_flag_ c = true -> existsb is_HReadSize (posted_ c) = false ->
   forall later : list Event,
     tally is_AsyncReadStarted (snd (run later (fst r))) = 0%nat).
Proof.
  intros Ha Hgt. cbn zeta.
  destruct (step_oversized_prefix c sb Ha Hgt)
    as (Hcalls & Hnone & Hbuf & Hread & Hstart & Hposted).
  destruct (step_close (EvReadCompleted None (size_buffer_bytes sb)) c)
    as (_ & Hflag & Hsd & Hcl & _).
  rewrite Hcalls in Hflag, Hsd, Hcl.
  repeat split; try assumption.
  - rewrite Hflag. apply orb_true_r.
  - intros Hs Hp later. apply run_reading_stopped.
    unfold reading_stopped. rewrite Hread, Hstart, Hposted. auto.
Qed.

(** Claim C5.  A payload that is empty or longer than [MaxMessageSize]
    makes [EncodeData], and with it [Send], throw (invalid_string_size for
    the empty one, ipc_message_too_large otherwise); the connection is left
    exactly as it was, with nothing queued, and the payload is not among
    the frames that ever go to the socket. *)
Theorem Send_rejects_bad_payload (payload : list byte) (c : Connection)
    (before after : list Event) :
  length payload = 0%nat \/ Z.of_nat (length payload) > MaxMessageSize ->
  let e := if (length payload =? 0)%nat then invalid_string_size
           else ipc_message_too_large in
  EncodeData MaxMessageSize payload = Threw e /\
  Send MaxMessageSize payload c = (c, [Exception e]) /\
  step (EvSend payload) c = (c, [Exception e]) /\
  accepted (before ++ EvSend payload :: after) = accepted (before ++ after).
Proof.
  intros H. cbn zeta. pose proof (EncodeData_invalid payload H) as E.
  repeat split.
  - exact E.
  - unfold Send. rewrite E. reflexivity.
  - unfold TcpConnection.step, Send. rewrite E. reflexivity.
  - rewrite !accepted_app. simpl. rewrite E. reflexivity.
Qed.

(** Claim C6.  On a connection that was started with a connection-closed
    callback and is not yet closed, whatever happens next and however
    often [DoClose] is entered (through [Close], a failed read, an
    oversized prefix or a failed write), the socket is shut down and
    closed at most once and the callback is called at most once; as soon
    as [DoClose] is entered at all, each of them has happened exactly
    once. *)
Theorem connection_closed_callback_exactly_once
    (c : Connection) (f : ConnectionClosedFunctor) (evs : list Event) :
  start_flag_ c = true ->
  on_connection_closed_ c = Some f ->
  socket_close_flag_ c = false ->
  let es := snd (run evs c) in
  let once := if (0 <? tally is_DoCloseCalled es)%nat then 1%nat else 0%nat in
  tally is_SocketShutdownSend es = once /\
  tally is_SocketClosed es = once /\
  tally is_ConnectionClosedCalled es = once /\
  socket_close_flag_ (fst (run evs c)) = (0 <? tally is_DoCloseCalled es)%nat.
Proof.
  intros Hs Hf Hc. cbn zeta.
  destruct (run_close_once evs c (or_introl Hs)) as (_ & _ & Hflag & Hsd & Hcl & Hcb).
  unfold close_count, callback_count in *. rewrite Hc in *. rewrite Hf in Hcb.
  repeat split; assumption.
Qed.

(** Claim C10.  On a connection whose callbacks were never registered (no
    [Start] so far and none in the run), nothing that happens calls a
    callback; once [DoClose] is entered the socket has been shut down and
    closed exactly once all the same, and [DoClose] itself does just
    that: shutdown, close, no callback. *)
Theorem DoClose_without_Start_calls_no_callback (c : Connection) (evs : list Event) :
  on_message_received_ c = None ->
  on_connection_closed_ c = None ->
  socket_close_flag_ c = false ->
  forallb (fun ev => negb (is_EvStart ev)) evs = true ->
  let es := snd (run evs c) in
  let once := if (0 <? tally is_DoCloseCalled es)%nat then 1%nat else 0%nat in
  tally is_callback es = 0%nat /\
  tally is_SocketShutdownSend es = once /\
  tally is_SocketClosed es = once /\
  snd (DoClose c) = [DoCloseCalled; SocketShutdownSend; SocketClosed] /\
  is_open (socket_ (fst (DoClose c))) = false /\
  socket_close_flag_ (fst (DoClose c)) = true.
Proof.
  intros Hm Hf Hc Hevs. cbn zeta.
  destruct (run_close_once evs c (or_intror Hevs)) as (_ & _ & _ & Hsd & Hcl & _).
  unfold close_count in *. rewrite Hc in *.
  split; [apply run_no_callback; assumption|].
  split; [exact Hsd|]. split; [exact Hcl|].
  destruct c as [sf cf sk om oc rm q ps ar aw]. simpl in Hm, Hf, Hc. subst.
  by_cases; repeat split; reflexivity.
Qed.

End Runs.

(** Claim C8.  Each of the two constructors throws invalid_parameter
    exactly when the executor's thread count is not one; with one thread
    the plain constructor returns the connection and the dialing one can
    only fail on the connect. *)
Theorem constructors_require_single_thread
    (connect : Socket -> Endpoint -> Socket * error_code)
    (thread_count remote_port : N) :
  (TcpConnection thread_count = Threw invalid_parameter <-> thread_count <> 1%N) /\
  (TcpConnection_dial connect thread_count remote_port = Threw invalid_parameter
   <-> thread_count <> 1%N) /\
  TcpConnection 1 = Returned initial /\
  TcpConnection_dial connect 1 remote_port <> Threw invalid_parameter.
Proof.
  assert (Hdial : forall tc, TcpConnection_dial connect tc remote_port
                             = Threw invalid_parameter <-> tc <> 1%N).
  { intros tc. unfold TcpConnection_dial.
    destruct (N.eqb_spec tc 1) as [->|Hne]; simpl.
    - destruct (connect _ (v6_loopback remote_port)) as [s1 [[]|]];
        try destruct (connect s1 (v4_loopback remote_port)) as [s2 ec2];
        match goal with |- context [is_open ?s] => destruct (is_open s) end;
        simpl; split; intros H; try discriminate H; exfalso; apply H; reflexivity.
    - split; [intros _; exact Hne|reflexivity]. }
  split; [|split; [apply Hdial|split; [reflexivity|]]].
  - unfold TcpConnection. simpl.
    destruct (N.eqb_spec thread_count 1) as [->|Hne]; simpl.
    + split; [discriminate|intros H; exfalso; apply H; reflexivity].
    + split; [intros _; exact Hne|reflexivity].
  - intros H. apply Hdial in H. apply H. reflexivity.
Qed.

(** *** A connected pair: what is sent arrives *)

Lemma decode_size_prefix (n : Z) :
  0 <= n < 2 ^ 32 -> decode_size unsigned_char (size_prefix n) = n.
Proof.
  intros Hn. unfold size_prefix.
  change (8 * (3 - 0)) with 24. change (8 * (3 - 1)) with 16.
  change (8 * (3 - 2)) with 8. change (8 * (3 - 3)) with 0.
  rewrite decode_size_unsigned, !byte_value_char_of_Z.
  apply big_endian_digits. exact Hn.
Qed.

(** Were the elements of the inbound size buffer signed, a length byte
    with the high bit set would be sign-extended by the promotion: the
    prefix of a 128-byte payload would be read back as 2^32 - 128. *)
Remark signed_elements_would_break_the_prefix :
  decode_size signed_char (size_prefix 128) = 2 ^ 32 - 128.
Proof. vm_compute. reflexivity. Qed.

Section Delivery.

Variable MaxMessageSize : Z.
Hypothesis MaxMessageSize_fits : MaxMessageSize < 2 ^ 32.

Local Abbreviation step := (TcpConnection.step MaxMessageSize unsigned_char).
Local Abbreviation run := (TcpConnection.run MaxMessageSize unsigned_char).
Local Abbreviation receive_stream :=
  (TcpConnection.receive_stream MaxMessageSize unsigned_char).
Local Abbreviation valid := (valid_payload MaxMessageSize).

Lemma step_size_read (p : list byte) (c : Connection) :
  valid p -> async_read_ c = Some SizeRead ->
  let r := step (EvReadCompleted None
                   (size_buffer_bytes (size_prefix (Z.of_nat (length p))))) c in
  async_read_ (fst r) = Some DataRead /\
  length (data_buffer (receiving_message_ (fst r))) = length p /\
  posted_ (fst r) = posted_ c /\
  on_message_received_ (fst r) = on_message_received_ c /\
  socket_close_flag_ (fst r) = socket_close_flag_ c /\
  received_of (snd r) = [] /\ tally is_DoCloseCalled (snd r) = 0%nat.
Proof.
  intros Hv Ha. destruct c as [sf cf sk om oc rm q ps ar aw]. simpl in Ha. subst ar.
  unfold TcpConnection.step. cbn [async_read_].
  assert (Hsb : size_buffer_of_bytes
                  (size_buffer_bytes (size_prefix (Z.of_nat (length p))))
                = Some (size_prefix (Z.of_nat (length p)))) by reflexivity.
  rewrite Hsb.
  unfold ReadSize_handler, andThen, modify. cbn [fst snd].
  rewrite decode_size_prefix by (unfold valid_payload in Hv; lia).
  destruct (Z.gtb_spec (Z.of_nat (length p)) MaxMessageSize) as [Hgt|_];
    [unfold valid_payload in Hv; lia|].
  unfold ReadData, andThen, modify, emit. simpl.
  rewrite length_resize, Nat2Z.id. repeat split; reflexivity.
Qed.

Lemma step_data_read (p : list byte) (c : Connection) :
  async_read_ c = Some DataRead ->
  length (data_buffer (receiving_message_ c)) = length p ->
  let r := step (EvReadCompleted None p) c in
  async_read_ (fst r) = Some SizeRead /\
  posted_ (fst r) = posted_ c ++ [HDeliver p] /\
  on_message_received_ (fst r) = on_message_received_ c /\
  socket_close_flag_ (fst r) = socket_close_flag_ c /\
  received_of (snd r) = [] /\ tally is_DoCloseCalled (snd r) = 0%nat.
Proof.
  intros Ha Hl. destruct c as [sf cf sk om oc rm q ps ar aw]. simpl in Ha, Hl. subst ar.
  unfold TcpConnection.step. cbn [async_read_ receiving_message_].
  rewrite Hl, Nat.eqb_refl. by_cases; repeat split; reflexivity.
Qed.

Lemma step_deliver (p : list byte) (f : MessageReceivedFunctor) (hs : list Handler)
    (c : Connection) :
  posted_ c = HDeliver p :: hs -> on_message_received_ c = Some f ->
  let r := step EvRunPosted c in
  async_read_ (fst r) = async_read_ c /\
  posted_ (fst r) = hs /\
  on_message_received_ (fst r) = Some f /\
  socket_close_flag_ (fst r) = socket_close_flag_ c /\
  snd r = [MessageReceivedCalled f p].
Proof.
  intros Hp Hf. destruct c as [sf cf sk om oc rm q ps ar aw]. simpl in Hp, Hf. subst.
  by_cases; repeat split; reflexivity.
Qed.

Lemma receive_stream_read (fuel : nat) (bytes wire : list byte) (c : Connection) :
  posted_ c = [] -> read_request c = Some (length bytes) ->
  receive_stream (S fuel) (bytes ++ wire) c =
  let r := step (EvReadCompleted None bytes) c in
  let r' := receive_stream fuel wire (fst r) in
  (fst (fst r'), snd r ++ snd (fst r'), snd r').
Proof.
  intros Hp Hr. cbn [TcpConnection.receive_stream]. rewrite Hp, Hr.
  rewrite (proj2 (Nat.leb_le _ _)) by (rewrite length_app; lia).
  rewrite take_app_length, drop_app_length. cbn zeta.
  destruct (step (EvReadCompleted None bytes) c) as [c1 e1]. cbn [fst snd].
  destruct (receive_stream fuel wire c1) as [[c2 e2] rest]. reflexivity.
Qed.

Lemma receive_stream_posted (fuel : nat) (wire : list byte) (h : Handler)
    (hs : list Handler) (c : Connection) :
  posted_ c = h :: hs ->
  receive_stream (S fuel) wire c =
  let r := step EvRunPosted c in
  let r' := receive_stream fuel wire (fst r) in
  (fst (fst r'), snd r ++ snd (fst r'), snd r').
Proof.
  intros Hp. cbn [TcpConnection.receive_stream]. rewrite Hp. cbn zeta.
  destruct (step EvRunPosted c) as [c1 e1]. cbn [fst snd].
  destruct (receive_stream fuel wire c1) as [[c2 e2] rest]. reflexivity.
Qed.

Lemma concat_frames_cons (p : list byte) (ps : list (list byte)) :
  concat (map frame (p :: ps)) =
  size_buffer_bytes (size_prefix (Z.of_nat (length p))) ++ p ++ concat (map frame ps).
Proof.
  cbn [map concat]. unfold frame at 1. rewrite <- app_assoc. reflexivity.
Qed.

(** A connection waiting for a length prefix, fed the frames of valid
    payloads, hands each payload to the message callback once, in order,
    reads the stream to its end and does not close.  Three turns of the
    executor per frame are enough. *)
Lemma receive_stream_frames (payloads : list (list byte)) (f : MessageReceivedFunctor) :
  Forall valid payloads ->
  forall (fuel : nat) (c : Connection),
  (3 * length payloads <= fuel)%nat ->
  posted_ c = [] -> async_read_ c = Some SizeRead -> on_message_received_ c = Some f ->
  let r := receive_stream fuel (concat (map frame payloads)) c in
  received_of (snd (fst r)) = payloads /\
  snd r = [] /\
  tally is_DoCloseCalled (snd (fst r)) = 0%nat /\
  socket_close_flag_ (fst (fst r)) = socket_close_flag_ c.
Proof.
  induction 1 as [|p ps Hp Hps IH]; intros fuel c Hfuel Hposted Hread Hf.
  - simpl. destruct fuel as [|fuel]; simpl; [auto|].
    rewrite Hposted. unfold read_request. rewrite Hread. simpl. auto.
  - destruct fuel as [|[|[|fuel]]]; simpl in Hfuel; try lia.
    destruct (step_size_read p c Hp Hread) as (Ha1 & Hl1 & Hp1 & Hf1 & Hc1 & Hr1 & Hd1).
    cbn zeta. rewrite (concat_frames_cons p ps).
    rewrite receive_stream_read
      by (try assumption; unfold read_request; rewrite Hread; reflexivity).
    cbn zeta.
    set (c1 := fst (step (EvReadCompleted None _) c)) in *.
    set (e1 := snd (step (EvReadCompleted None _) c)) in *.
    destruct (step_data_read p c1 Ha1 Hl1) as (Ha2 & Hp2 & Hf2 & Hc2 & Hr2 & Hd2).
    rewrite receive_stream_read
      by (try congruence; unfold read_request; rewrite Ha1, Hl1; reflexivity).
    cbn zeta.
    set (c2 := fst (step (EvReadCompleted None p) c1)) in *.
    set (e2 := snd (step (EvReadCompleted None p) c1)) in *.
    rewrite Hp1, Hposted in Hp2. simpl in Hp2.
    destruct (step_deliver p f [] c2 Hp2 ltac:(congruence)) as (Ha3 & Hp3 & Hf3 & Hc3 & He3).
    rewrite (receive_stream_posted _ _ _ _ _ Hp2).
    cbn zeta.
    set (c3 := fst (step EvRunPosted c2)) in *.
    specialize (IH fuel c3 ltac:(lia) Hp3 ltac:(congruence) Hf3). cbn zeta in IH.
    destruct IH as (IH1 & IH2 & IH3 & IH4).
    cbn [fst snd].
    rewrite !received_of_app, !tally_app, Hr1, Hr2, Hd1, Hd2, He3, IH1, IH3. simpl.
    repeat split; auto. congruence.
Qed.

(** Claim C1.  For payloads with 0 < len <= MaxMessageSize (and a maximum
    that fits the 32-bit prefix): [EncodeData] frames each payload with
    the big-endian bytes of its length; the reassembly of [ReadSize] on
    those bytes gives the length back, also when a length byte has its
    high bit set, and the value passes the maximum-size check.  Hence a
    sender with nothing queued puts exactly the frames of the payloads on
    the socket, in order, and a receiver started on that stream hands
    exactly these payloads to the message callback, each once, in order,
    without closing. *)
Theorem framed_payloads_arrive_once_in_order
    (payloads : list (list byte))
    (f : MessageReceivedFunctor) (g : option ConnectionClosedFunctor)
    (on_io_thread : bool) (sender receiver : Connection) (fuel : nat) :
  Forall valid payloads ->
  idle sender ->
  start_flag_ receiver = false -> posted_ receiver = [] ->
  (3 * length payloads + 1 <= fuel)%nat ->
  Forall (fun p =>
            EncodeData MaxMessageSize p =
              Returned {| size_buffer := size_prefix (Z.of_nat (length p)); data := p |} /\
            decode_size unsigned_char (size_prefix (Z.of_nat (length p)))
              = Z.of_nat (length p) /\
            (decode_size unsigned_char (size_prefix (Z.of_nat (length p)))
               >? MaxMessageSize) = false) payloads /\
  let wire := wire_of (snd (run (send_all payloads) sender)) in
  let started := fst (Start (Some f) g on_io_thread receiver) in
  let r := receive_stream fuel wire started in
  wire = concat (map frame payloads) /\
  received_of (snd (fst r)) = payloads /\
  snd r = [] /\
  tally is_DoCloseCalled (snd (fst r)) = 0%nat.
Proof.
  intros Hps Hidle Hstart Hposted Hfuel. split.
  - eapply Forall_impl; [exact Hps|]. intros p Hp. cbn beta.
    assert (Hd : decode_size unsigned_char (size_prefix (Z.of_nat (length p)))
                 = Z.of_nat (length p))
      by (apply decode_size_prefix; unfold valid_payload in Hp; lia).
    split; [apply EncodeData_valid; exact Hp|]. split; [exact Hd|].
    rewrite Hd. destruct (Z.gtb_spec (Z.of_nat (length p)) MaxMessageSize);
      [unfold valid_payload in Hp; lia|reflexivity].
  - cbn zeta. rewrite (send_all_wire MaxMessageSize unsigned_char payloads sender Hidle Hps).
    split; [reflexivity|].
    destruct receiver as [sf cf sk om oc rm q ps ar aw]. simpl in Hstart, Hposted. subst.
    destruct on_io_thread.
    + destruct (receive_stream_frames payloads f Hps fuel
                  (fst (Start (Some f) g true
                     {| start_flag_ := false; socket_close_flag_ := cf; socket_ := sk;
                        on_message_received_ := om; on_connection_closed_ := oc;
                        receiving_message_ := rm; send_queue_ := q; posted_ := [];
                        async_read_ := ar; async_write_ := aw |})))
        as (H1 & H2 & H3 & _); try reflexivity; [lia|].
      repeat split; assumption.
    + destruct fuel as [|fuel]; [lia|].
      rewrite (receive_stream_posted fuel _ HReadSize []) by reflexivity.
      cbn zeta.
      destruct (receive_stream_frames payloads f Hps fuel
                  (fst (step EvRunPosted (fst (Start (Some f) g false
                     {| start_flag_ := false; socket_close_flag_ := cf; socket_ := sk;
                        on_message_received_ := om; on_connection_closed_ := oc;
                        receiving_message_ := rm; send_queue_ := q; posted_ := [];
                        async_read_ := ar; async_write_ := aw |})))))
        as (H1 & H2 & H3 & _); try reflexivity; [lia|].
      cbn [fst snd]. rewrite received_of_app, tally_app, H1, H3.
      repeat split; try assumption; reflexivity.
Qed.

End Delivery.

End TcpConnectionFacts.

(** *** Instances *)

Module TcpConnectionExamples.

Import TcpConnection TcpConnectionFacts.

(** One megabyte, and a maximum that fits the prefix. *)
Lemma one_megabyte_fits : 1048576 < 2 ^ 32.
Proof. lia. Qed.

(** Three payloads of 1, 200 and 2 bytes cross a fresh pair in order; the
    low length byte of the second is 0xC8. *)
Lemma framed_payloads_arrive_once_in_order_witness :
  received_of
    (snd (fst (receive_stream 1048576 unsigned_char 10
       (wire_of (snd (run 1048576 unsigned_char
          (send_all [[x01]; replicate 200 x61; [x02; x03]]) initial)))
       (fst (Start (Some 7%nat) None true initial)))))
  = [[x01]; replicate 200 x61; [x02; x03]].
Proof.
  refine (proj1 (proj2 (proj2
    (framed_payloads_arrive_once_in_order 1048576 one_megabyte_fits
       [[x01]; replicate 200 x61; [x02; x03]] 7%nat None true initial initial 10%nat
       _ _ _ _ _)))).
  - repeat constructor; unfold valid_payload; rewrite ?length_replicate; simpl; lia.
  - repeat split; reflexivity.
  - reflexivity.
  - reflexivity.
  - simpl. lia.
Defined.

(** A started connection reads the prefix ff 00 00 00. *)
Lemma oversized_prefix_closes_without_body_read_witness :
  let c := fst (Start (Some 1%nat) (Some 2%nat) true initial) in
  let r := step 1048576 unsigned_char
             (EvReadCompleted None [xff; x00; x00; x00]) c in
  socket_close_flag_ (fst r) = true /\
  tally is_SocketClosed (snd r) = 1%nat /\
  tally is_AsyncReadStarted
    (snd r ++ snd (run 1048576 unsigned_char [EvRunPosted; EvClose; EvRunPosted] (fst r)))
  = 0%nat.
Proof.
  cbn zeta.
  pose proof (oversized_prefix_closes_without_body_read 1048576 unsigned_char
                (fst (Start (Some 1%nat) (Some 2%nat) true initial))
                (xff, x00, x00, x00) eq_refl eq_refl) as H.
  cbn zeta in H. destruct H as (_ & Hflag & _ & Hcl & _ & _ & Hnone & Hlater).
  change [xff; x00; x00; x00] with (size_buffer_bytes (xff, x00, x00, x00)).
  split; [exact Hflag|]. split; [exact Hcl|].
  rewrite tally_app, Hnone.
  exact (Hlater eq_refl eq_refl [EvRunPosted; EvClose; EvRunPosted]).
Defined.

(** The empty payload on a fresh connection. *)
Lemma Send_rejects_bad_payload_witness :
  Send 1048576 [] initial = (initial, [Exception invalid_string_size]).
Proof.
  exact (proj1 (proj2 (Send_rejects_bad_payload 1048576 unsigned_char [] initial [] []
                         (or_introl eq_refl)))).
Defined.

(** Two calls of [Close], a failed read and a failed write: four entries
    into [DoClose], one callback. *)
Lemma connection_closed_callback_exactly_once_witness :
  let es := snd (run 1048576 unsigned_char
                   [EvSend [x01]; EvRunPosted; EvClose; EvClose; EvRunPosted;
                    EvReadCompleted (Some eof) []; EvWriteCompleted (Some eof);
                    EvRunPosted]
                   (fst (Start (Some 1%nat) (Some 2%nat) true initial))) in
  tally is_DoCloseCalled es = 4%nat /\ tally is_ConnectionClosedCalled es = 1%nat.
Proof.
  cbn zeta. split; [reflexivity|].
  exact (proj1 (proj2 (proj2
    (connection_closed_callback_exactly_once 1048576 unsigned_char
       (fst (Start (Some 1%nat) (Some 2%nat) true initial)) 2%nat
       [EvSend [x01]; EvRunPosted; EvClose; EvClose; EvRunPosted;
        EvReadCompleted (Some eof) []; EvWriteCompleted (Some eof); EvRunPosted]
       eq_refl eq_refl eq_refl)))).
Defined.

(** [Close] on a connection that was constructed and never started. *)
Lemma DoClose_without_Start_calls_no_callback_witness :
  let es := snd (run 1048576 unsigned_char
                   [EvClose; EvSend [x01]; EvRunPosted; EvRunPosted] initial) in
  tally is_callback es = 0%nat /\ tally is_SocketClosed es = 1%nat.
Proof.
  cbn zeta.
  pose proof (DoClose_without_Start_calls_no_callback 1048576 unsigned_char initial
                [EvClose; EvSend [x01]; EvRunPosted; EvRunPosted]
                eq_refl eq_refl eq_refl eq_refl) as H.
  cbn zeta in H. destruct H as (Hcb & _ & Hcl & _).
  split; [exact Hcb|exact Hcl].
Defined.

End TcpConnectionExamples.

(** ** TcpConnection: further properties of the code *)

Module TcpConnectionMore.

Import TcpConnection TcpConnectionFacts.

Section MoreRuns.

Variable MaxMessageSize : Z.
Variable size_elem : char_kind.

Local Abbreviation step := (TcpConnection.step MaxMessageSize size_elem).
Local Abbreviation run := (TcpConnection.run MaxMessageSize size_elem).
Local Abbreviation accepted := (TcpConnection.accepted MaxMessageSize).
Local Abbreviation acceptable := (TcpConnection.acceptable MaxMessageSize).
Local Abbreviation inbound_bounded := (TcpConnection.inbound_bounded MaxMessageSize).

Lemma decode_size_nonneg (sb : SizeBuffer) : 0 <= decode_size size_elem sb < 2 ^ 32.
Proof.
  destruct sb as [[[b0 b1] b2] b3]. unfold decode_size, uint32.
  apply Z.mod_pos_bound. lia.
Qed.

Lemma step_inbound_bounded (ev : Event) (c : Connection) :
  inbound_bounded c ->
  inbound_bounded (fst (step ev c)) /\
  Forall (fun p => Z.of_nat (length p) <= MaxMessageSize)
         (received_of (snd (step ev c))).
Proof.
  destruct c as [sf cf sk om oc rm q ps ar aw].
  unfold inbound_bounded. simpl. intros [Hbuf Hps].
  destruct ev.
  - by_cases; rewrite ?forallb_app, ?Hps; simpl; repeat split; auto; discriminate.
  - by_cases; rewrite ?forallb_app, ?Hps; simpl; repeat split; auto.
  - by_cases; rewrite ?forallb_app, ?Hps; simpl; repeat split; auto.
  - destruct ps as [|h hs]; [by_cases; repeat split; auto|].
    simpl in Hps. apply andb_prop in Hps as [Hh Hhs].
    destruct h; by_cases; repeat split; auto; try discriminate.
    constructor; [apply Z.leb_le; exact Hh|constructor].
  - destruct ar as [[|]|]; [| |by_cases; repeat split; auto].
    + unfold TcpConnection.step. cbn [async_read_].
      destruct ec as [e|]; [by_cases; repeat split; auto; discriminate|].
      destruct (size_buffer_of_bytes bytes) as [sb|]; [|by_cases; repeat split; auto; discriminate].
      unfold ReadSize_handler, andThen, modify. cbn [fst snd].
      destruct (Z.gtb_spec (decode_size size_elem sb) MaxMessageSize) as [Hgt|Hle].
      * by_cases; repeat split; auto; discriminate.
      * pose proof (decode_size_nonneg sb) as Hd.
        by_cases; repeat split; auto. intros _.
        rewrite length_resize, Z2Nat.id by lia. exact Hle.
    + unfold TcpConnection.step. cbn [async_read_ receiving_message_].
      destruct ec as [e|]; [by_cases; repeat split; auto; discriminate|].
      destruct (Nat.eqb_spec (length bytes) (length (data_buffer rm))) as [Hl|Hl];
        [|by_cases; repeat split; auto].
      by_cases; rewrite ?forallb_app, ?Hps; simpl; repeat split; auto; try discriminate.
      all: rewrite ?andb_true_r; apply Z.leb_le; rewrite Hl; apply Hbuf; reflexivity.
  - by_cases; repeat split; auto.
Qed.

Lemma Forall_received_app P (es1 es2 : list Effect) :
  Forall P (received_of es1) -> Forall P (received_of es2) ->
  Forall P (received_of (es1 ++ es2)).
Proof. intros H1 H2. rewrite received_of_app. apply Forall_app. auto. Qed.

(** Extra X3.  From a state whose inbound buffer and queued deliveries are
    within [MaxMessageSize] (a constructed connection is one), whatever
    happens, every payload handed to the message callback has at most
    [MaxMessageSize] bytes, whatever the peer puts in its prefixes. *)
Theorem delivered_payloads_fit (evs : list Event) (c : Connection) :
  inbound_bounded c ->
  Forall (fun p => Z.of_nat (length p) <= MaxMessageSize)
         (received_of (snd (run evs c))).
Proof.
  revert c. induction evs as [|ev rest IH]; intros c Hc; [constructor|].
  rewrite run_cons. cbn [snd].
  destruct (step_inbound_bounded ev c Hc) as [Hc1 He1].
  apply Forall_received_app; [exact He1|apply IH; exact Hc1].
Qed.

Lemma step_transmission_stalled (ev : Event) (c : Connection) :
  transmission_stalled c ->
  transmission_stalled (fst (step ev c)) /\
  wire_of (snd (step ev c)) = [] /\
  tally is_AsyncWriteStarted (snd (step ev c)) = 0%nat.
Proof.
  destruct c as [sf cf sk om oc rm q ps ar aw].
  unfold transmission_stalled. simpl. intros [-> Hq].
  destruct q as [|m q]; [contradiction|].
  destruct ev; by_cases; repeat split; auto; discriminate.
Qed.

Lemma run_transmission_stalled (evs : list Event) (c : Connection) :
  transmission_stalled c ->
  transmission_stalled (fst (run evs c)) /\
  wire_of (snd (run evs c)) = [] /\
  tally is_AsyncWriteStarted (snd (run evs c)) = 0%nat.
Proof.
  revert c. induction evs as [|ev rest IH]; intros c Hc; [repeat split; apply Hc|].
  rewrite run_cons. cbn [fst snd].
  destruct (step_transmission_stalled ev c Hc) as (Hc1 & Hw1 & Ht1).
  destruct (IH _ Hc1) as (Hc2 & Hw2 & Ht2).
  rewrite wire_of_app, tally_app, Hw1, Hw2, Ht1, Ht2. auto.
Qed.

Lemma step_stalled_queue_grows (ev : Event) (c : Connection) :
  transmission_stalled c ->
  send_queue_ c `prefix_of` send_queue_ (fst (step ev c)).
Proof.
  destruct c as [sf cf sk om oc rm q ps ar aw].
  unfold transmission_stalled. simpl. intros [-> Hq].
  destruct q as [|m q]; [contradiction|].
  destruct ev; by_cases; try reflexivity; eexists; rewrite app_comm_cons; reflexivity.
Qed.

Lemma run_stalled_queue_grows (evs : list Event) (c : Connection) :
  transmission_stalled c ->
  send_queue_ c `prefix_of` send_queue_ (fst (run evs c)).
Proof.
  revert c. induction evs as [|ev rest IH]; intros c Hc; [reflexivity|].
  rewrite run_cons. cbn [fst].
  destruct (step_transmission_stalled ev c Hc) as (Hc1 & _).
  etransitivity; [apply step_stalled_queue_grows; exact Hc|apply IH; exact Hc1].
Qed.

(** Extra X5.  When an outstanding write fails, the handler closes the
    connection and leaves the frame in the queue with no write
    outstanding.  From then on nothing is written any more: no event
    starts an [async_write] or puts bytes on the socket, and payloads
    passed to [Send] later are only queued behind the frames that were
    there. *)
Theorem failed_write_stops_transmission
    (e : AsioError) (later : list Event) (c : Connection) :
  async_write_ c = true -> send_queue_ c <> [] ->
  let c1 := fst (step (EvWriteCompleted (Some e)) c) in
  wire_of (snd (step (EvWriteCompleted (Some e)) c)) = [] /\
  socket_close_flag_ c1 = true /\
  wire_of (snd (run later c1)) = [] /\
  tally is_AsyncWriteStarted (snd (run later c1)) = 0%nat /\
  send_queue_ c `prefix_of` send_queue_ (fst (run later c1)).
Proof.
  intros Ha Hq. cbn zeta.
  assert (H1 : transmission_stalled (fst (step (EvWriteCompleted (Some e)) c)) /\
               send_queue_ (fst (step (EvWriteCompleted (Some e)) c)) = send_queue_ c /\
               wire_of (snd (step (EvWriteCompleted (Some e)) c)) = [] /\
               socket_close_flag_ (fst (step (EvWriteCompleted (Some e)) c)) = true).
  { destruct c as [sf cf sk om oc rm q ps ar aw]. simpl in Ha, Hq. subst aw.
    unfold transmission_stalled. destruct cf; by_cases; repeat split; auto. }
  destruct H1 as (Hst & Hsame & Hw & Hflag).
  destruct (run_transmission_stalled later _ Hst) as (_ & Hw2 & Ht2).
  repeat split; try assumption.
  rewrite <- Hsame. apply run_stalled_queue_grows. exact Hst.
Qed.

Lemma EncodeData_acceptable (p : list byte) :
  EncodeData MaxMessageSize p =
  if acceptable p
  then Returned {| size_buffer := size_prefix (Z.of_nat (length p)); data := p |}
  else Threw (if (length p =? 0)%nat then invalid_string_size else ipc_message_too_large).
Proof.
  unfold acceptable.
  destruct (Z.ltb_spec 0 (Z.of_nat (length p))) as [Hpos|Hz];
    [destruct (Z.leb_spec (Z.of_nat (length p)) MaxMessageSize) as [Hle|Hgt]|]; simpl.
  - apply EncodeData_valid. unfold valid_payload. lia.
  - rewrite (EncodeData_invalid MaxMessageSize p) by lia. reflexivity.
  - rewrite (EncodeData_invalid MaxMessageSize p) by lia. reflexivity.
Qed.

Lemma accepted_frames (evs : list Event) :
  concat (map frame_bytes (accepted evs)) =
  concat (map frame (List.filter (acceptable) (sent_payloads evs))).
Proof.
  induction evs as [|ev rest IH]; [reflexivity|].
  destruct ev; try exact IH.
  cbn [TcpConnection.accepted sent_payloads List.filter].
  rewrite EncodeData_acceptable.
  destruct (acceptable payload); cbn [map concat List.filter]; [|exact IH].
  rewrite IH. reflexivity.
Qed.

(** Extra X1.  For every sequence of events on a connection that had
    nothing to send, the bytes written to the socket followed by the bytes
    still waiting are the frames of the payloads that passed the two tests
    of [EncodeData], in the order of the calls of [Send]: frames are
    neither reordered, nor merged, nor lost, nor written twice, and a
    rejected payload leaves no trace. *)
Theorem frames_leave_in_order_of_Send (evs : list Event) (c : Connection) :
  idle c ->
  wire_of (snd (run evs c)) ++ backlog (fst (run evs c)) =
  concat (map frame (List.filter (acceptable) (sent_payloads evs))).
Proof.
  intros (Hq & Hp & _).
  rewrite (run_fifo MaxMessageSize size_elem evs c), accepted_frames.
  unfold backlog. rewrite Hq, Hp. reflexivity.
Qed.

(** Extra X2.  Once [Start] has run, nothing that happens changes the two
    callbacks, and every further call of [Start], with whatever functors,
    leaves the connection as it is and starts no second read. *)
Theorem Start_takes_effect_once (evs : list Event) (c : Connection) :
  start_flag_ c = true ->
  start_flag_ (fst (run evs c)) = true /\
  on_message_received_ (fst (run evs c)) = on_message_received_ c /\
  on_connection_closed_ (fst (run evs c)) = on_connection_closed_ c /\
  forall m f t, step (EvStart m f t) (fst (run evs c)) = (fst (run evs c), []).
Proof.
  revert c. induction evs as [|ev rest IH]; intros c Hs.
  - simpl. repeat split; auto. intros m f t.
    unfold TcpConnection.step, Start. rewrite Hs. reflexivity.
  - rewrite run_cons. cbn [fst].
    destruct (step_keeps_callbacks MaxMessageSize size_elem ev c (or_introl Hs))
      as (Hs1 & Hc1 & Hm1).
    destruct (IH (fst (step ev c)) ltac:(congruence)) as (H1 & H2 & H3 & H4).
    repeat split; try congruence.
Qed.

End MoreRuns.

Section MoreDelivery.

Variable MaxMessageSize : Z.
Hypothesis MaxMessageSize_fits : MaxMessageSize < 2 ^ 32.

Local Abbreviation step := (TcpConnection.step MaxMessageSize unsigned_char).
Local Abbreviation run := (TcpConnection.run MaxMessageSize unsigned_char).
Local Abbreviation receive_stream :=
  (TcpConnection.receive_stream MaxMessageSize unsigned_char).
Local Abbreviation receivable := (TcpConnection.receivable MaxMessageSize).

Lemma step_prefix_read (p : list byte) (c : Connection) :
  receivable p -> async_read_ c = Some SizeRead ->
  let r := step (EvReadCompleted None
                   (size_buffer_bytes (size_prefix (Z.of_nat (length p))))) c in
  async_read_ (fst r) = Some DataRead /\
  length (data_buffer (receiving_message_ (fst r))) = length p /\
  posted_ (fst r) = posted_ c /\
  on_message_received_ (fst r) = on_message_received_ c /\
  on_connection_closed_ (fst r) = on_connection_closed_ c /\
  socket_close_flag_ (fst r) = socket_close_flag_ c /\
  received_of (snd r) = [] /\ tally is_DoCloseCalled (snd r) = 0%nat.
Proof.
  intros Hv Ha. destruct c as [sf cf sk om oc rm q ps ar aw]. simpl in Ha. subst ar.
  unfold TcpConnection.step. cbn [async_read_].
  assert (Hsb : size_buffer_of_bytes
                  (size_buffer_bytes (size_prefix (Z.of_nat (length p))))
                = Some (size_prefix (Z.of_nat (length p)))) by reflexivity.
  rewrite Hsb.
  unfold ReadSize_handler, andThen, modify. cbn [fst snd].
  rewrite decode_size_prefix by (unfold TcpConnection.receivable in *; lia).
  destruct (Z.gtb_spec (Z.of_nat (length p)) MaxMessageSize) as [Hgt|_];
    [unfold TcpConnection.receivable in Hv; lia|].
  unfold ReadData, andThen, modify, emit. simpl.
  rewrite length_resize, Nat2Z.id. repeat split; reflexivity.
Qed.

Lemma step_body_read (p : list byte) (c : Connection) :
  async_read_ c = Some DataRead ->
  length (data_buffer (receiving_message_ c)) = length p ->
  let r := step (EvReadCompleted None p) c in
  async_read_ (fst r) = Some SizeRead /\
  posted_ (fst r) = posted_ c ++ [HDeliver p] /\
  on_message_received_ (fst r) = on_message_received_ c /\
  on_connection_closed_ (fst r) = on_connection_closed_ c /\
  socket_close_flag_ (fst r) = socket_close_flag_ c /\
  received_of (snd r) = [] /\ tally is_DoCloseCalled (snd r) = 0%nat.
Proof.
  intros Ha Hl.
  destruct (step_data_read MaxMessageSize p c Ha Hl) as (H1 & H2 & H3 & H4 & H5 & H6).
  destruct (step_keeps_callbacks MaxMessageSize unsigned_char (EvReadCompleted None p) c
              (or_intror eq_refl)) as (_ & Hc & _).
  repeat split; assumption.
Qed.

Lemma step_delivery (p : list byte) (f : MessageReceivedFunctor) (c : Connection) :
  posted_ c = [HDeliver p] -> on_message_received_ c = Some f ->
  let r := step EvRunPosted c in
  async_read_ (fst r) = async_read_ c /\
  posted_ (fst r) = [] /\
  on_message_received_ (fst r) = Some f /\
  on_connection_closed_ (fst r) = on_connection_closed_ c /\
  socket_close_flag_ (fst r) = socket_close_flag_ c /\
  snd r = [MessageReceivedCalled f p].
Proof.
  intros Hp Hf.
  destruct (step_deliver MaxMessageSize p f [] c Hp Hf) as (H1 & H2 & H3 & H4 & H5).
  destruct (step_keeps_callbacks MaxMessageSize unsigned_char EvRunPosted c
              (or_intror eq_refl)) as (_ & Hc & _).
  repeat split; assumption.
Qed.

Lemma step_quiet_no_callback (ev : Event) (c : Connection) :
  tally is_DoCloseCalled (snd (step ev c)) = 0%nat ->
  tally is_ConnectionClosedCalled (snd (step ev c)) = 0%nat.
Proof.
  intros H. destruct (step_close MaxMessageSize unsigned_char ev c) as (_ & _ & _ & _ & Hcb).
  rewrite Hcb, H. unfold callback_count.
  destruct (socket_close_flag_ c), (on_connection_closed_ c); reflexivity.
Qed.

Lemma step_read_delivers_nothing (ec : error_code) (bytes : list byte) (c : Connection) :
  received_of (snd (step (EvReadCompleted ec bytes) c)) = [].
Proof.
  destruct c as [sf cf sk om oc rm q ps ar aw].
  destruct cf; by_cases; reflexivity.
Qed.

(** Frames first, then whatever follows them on the stream. *)
Lemma receive_stream_frames_then
    (payloads : list (list byte)) (tail : list byte) (f : MessageReceivedFunctor)
    (k : nat) :
  Forall receivable payloads ->
  forall c : Connection, awaiting_prefix f c ->
  exists (c' : Connection) (es : list Effect),
    awaiting_prefix f c' /\
    socket_close_flag_ c' = socket_close_flag_ c /\
    on_connection_closed_ c' = on_connection_closed_ c /\
    received_of es = payloads /\
    tally is_DoCloseCalled es = 0%nat /\
    tally is_ConnectionClosedCalled es = 0%nat /\
    receive_stream (3 * length payloads + k) (concat (map frame payloads) ++ tail) c =
      (fst (fst (receive_stream k tail c')),
       es ++ snd (fst (receive_stream k tail c')),
       snd (receive_stream k tail c')).
Proof.
  induction 1 as [|p ps Hp Hps IH]; intros c (Hposted & Hread & Hf).
  - exists c, []. simpl. repeat split; auto.
    destruct (receive_stream k tail c) as [[c1 e1] rest]. reflexivity.
  - destruct (step_prefix_read p c Hp Hread)
      as (Ha1 & Hl1 & Hp1 & Hf1 & Hg1 & Hc1 & Hr1 & Hd1).
    replace (3 * length (p :: ps) + k)%nat with (S (S (S (3 * length ps + k))))
      by (simpl; lia).
    rewrite (concat_frames_cons p ps), <- !app_assoc.
    rewrite (receive_stream_read MaxMessageSize)
      by (try assumption; unfold read_request; rewrite Hread; reflexivity).
    cbn zeta.
    set (c1 := fst (step (EvReadCompleted None _) c)) in *.
    set (e1 := snd (step (EvReadCompleted None _) c)) in *.
    destruct (step_body_read p c1 Ha1 Hl1) as (Ha2 & Hp2 & Hf2 & Hg2 & Hc2 & Hr2 & Hd2).
    rewrite (receive_stream_read MaxMessageSize)
      by (try congruence; unfold read_request; rewrite Ha1, Hl1; reflexivity).
    cbn zeta.
    set (c2 := fst (step (EvReadCompleted None p) c1)) in *.
    set (e2 := snd (step (EvReadCompleted None p) c1)) in *.
    rewrite Hp1, Hposted in Hp2. simpl in Hp2.
    destruct (step_delivery p f c2 Hp2 ltac:(congruence))
      as (Ha3 & Hp3 & Hf3 & Hg3 & Hc3 & He3).
    rewrite (receive_stream_posted MaxMessageSize _ _ _ _ _ Hp2).
    cbn zeta.
    set (c3 := fst (step EvRunPosted c2)) in *.
    destruct (IH c3) as (c' & es & Hw & Hcf & Hcg & Hrec & Hdc & Hcc & Heq).
    { repeat split; [exact Hp3|congruence|exact Hf3]. }
    exists c', (e1 ++ e2 ++ snd (step EvRunPosted c2) ++ es).
    split; [exact Hw|]. split; [congruence|]. split; [congruence|].
    split; [rewrite !received_of_app, Hr1, Hr2, He3, Hrec; reflexivity|].
    split; [rewrite !tally_app, Hd1, Hd2, He3, Hdc; reflexivity|].
    split.
    { rewrite !tally_app, Hcc, He3.
      unfold e1, e2. rewrite !step_quiet_no_callback by assumption. reflexivity. }
    rewrite Heq. cbn [fst snd]. rewrite <- !app_assoc. reflexivity.
Qed.


Lemma receive_stream_starved (f : MessageReceivedFunctor) (k : nat) (tail : list byte)
    (c : Connection) :
  awaiting_prefix f c -> (length tail < 4)%nat ->
  receive_stream k tail c = (c, [], tail).
Proof.
  intros (Hp & Hr & _) Hl. destruct k as [|k]; [reflexivity|].
  cbn [TcpConnection.receive_stream]. rewrite Hp. unfold read_request. rewrite Hr.
  rewrite (proj2 (Nat.leb_gt _ _)) by exact Hl. reflexivity.
Qed.

Lemma receive_stream_no_read (k : nat) (wire : list byte) (c : Connection) :
  posted_ c = [] -> async_read_ c = None ->
  receive_stream k wire c = (c, [], wire).
Proof.
  intros Hp Hr. destruct k as [|k]; [reflexivity|].
  cbn [TcpConnection.receive_stream]. rewrite Hp. unfold read_request. rewrite Hr.
  reflexivity.
Qed.

Lemma receive_partial_frame (f : MessageReceivedFunctor) (p : list byte) (j k : nat)
    (c : Connection) :
  awaiting_prefix f c -> receivable p -> (j < length (frame p))%nat ->
  received_of (snd (fst (receive_stream k (take j (frame p)) c))) = [] /\
  tally is_DoCloseCalled (snd (fst (receive_stream k (take j (frame p)) c))) = 0%nat.
Proof.
  intros Hc Hp Hj.
  destruct (Nat.lt_ge_cases j 4) as [Hlt|Hge].
  - rewrite (receive_stream_starved f) by (try exact Hc; rewrite length_take; lia).
    split; reflexivity.
  - unfold frame in *. rewrite length_app in Hj.
    change (length (size_buffer_bytes (size_prefix (Z.of_nat (length p))))) with 4%nat in Hj.
    rewrite take_app.
    change (length (size_buffer_bytes (size_prefix (Z.of_nat (length p))))) with 4%nat.
    rewrite (take_ge (size_buffer_bytes _)) by (simpl; lia).
    destruct k as [|k]; [split; reflexivity|].
    destruct Hc as (Hposted & Hread & Hf).
    destruct (step_prefix_read p c Hp Hread)
      as (Ha1 & Hl1 & Hp1 & Hf1 & Hg1 & Hc1 & Hr1 & Hd1).
    rewrite (receive_stream_read MaxMessageSize)
      by (try assumption; unfold read_request; rewrite Hread; reflexivity).
    cbn zeta. cbn [fst snd].
    set (c1 := fst (step (EvReadCompleted None _) c)) in *.
    assert (Hstop : receive_stream k (take (j - 4) p) c1 = (c1, [], take (j - 4) p)).
    { destruct k as [|k]; [reflexivity|].
      cbn [TcpConnection.receive_stream]. rewrite Hp1, Hposted.
      unfold read_request. rewrite Ha1, Hl1.
      rewrite (proj2 (Nat.leb_gt _ _)) by (rewrite length_take; lia). reflexivity. }
    rewrite Hstop. cbn [fst snd]. rewrite app_nil_r. split; assumption.
Qed.

(** Extra X6.  A stream that holds complete frames followed by a proper
    prefix of one more frame: the payloads of the complete frames are
    delivered in order, nothing of the incomplete frame reaches the message
    callback, and the connection does not close; the read stays
    outstanding. *)
Theorem truncated_frame_is_not_delivered
    (payloads : list (list byte)) (p : list byte) (j : nat)
    (f : MessageReceivedFunctor) (fuel : nat) (c : Connection) :
  Forall receivable payloads -> receivable p ->
  (j < length (frame p))%nat ->
  awaiting_prefix f c ->
  (3 * length payloads <= fuel)%nat ->
  let r := receive_stream fuel (concat (map frame payloads) ++ take j (frame p)) c in
  received_of (snd (fst r)) = payloads /\
  tally is_DoCloseCalled (snd (fst r)) = 0%nat.
Proof.
  intros Hps Hp Hj Hc Hfuel. cbn zeta.
  destruct (receive_stream_frames_then payloads (take j (frame p)) f
              (fuel - 3 * length payloads) Hps c Hc)
    as (c' & es & Hc' & _ & _ & Hrec & Hdc & _ & Heq).
  replace (3 * length payloads + (fuel - 3 * length payloads))%nat with fuel in Heq by lia.
  rewrite Heq. cbn [fst snd].
  destruct (receive_partial_frame f p j (fuel - 3 * length payloads) c' Hc' Hp Hj)
    as [Hr Hd].
  rewrite received_of_app, tally_app, Hrec, Hdc, Hr, Hd, app_nil_r. split; reflexivity.
Qed.

(** Extra X8.  The receiving side tests the upper bound only: every frame
    whose payload has at most [MaxMessageSize] bytes is delivered, the
    empty payload included, although [EncodeData] never produces the frame
    of an empty payload. *)
Theorem receiver_delivers_every_frame_within_bound
    (payloads : list (list byte)) (f : MessageReceivedFunctor) (fuel : nat)
    (c : Connection) :
  Forall receivable payloads ->
  awaiting_prefix f c ->
  (3 * length payloads <= fuel)%nat ->
  let r := receive_stream fuel (concat (map frame payloads)) c in
  received_of (snd (fst r)) = payloads /\
  snd r = [] /\
  tally is_DoCloseCalled (snd (fst r)) = 0%nat.
Proof.
  intros Hps Hc Hfuel. cbn zeta.
  destruct (receive_stream_frames_then payloads [] f
              (fuel - 3 * length payloads) Hps c Hc)
    as (c' & es & Hc' & _ & _ & Hrec & Hdc & _ & Heq).
  replace (3 * length payloads + (fuel - 3 * length payloads))%nat with fuel in Heq by lia.
  rewrite app_nil_r in Heq. rewrite Heq. cbn [fst snd].
  rewrite (receive_stream_starved f) by (try exact Hc'; simpl; lia).
  cbn [fst snd]. rewrite app_nil_r. repeat split; assumption.
Qed.

(** Extra X7.  Complete frames followed by a prefix whose value exceeds
    [MaxMessageSize]: the payloads before it are delivered in order; the
    oversized prefix closes the connection (the connection-closed callback
    runs if one is set and the socket was not closed before); what follows
    the prefix on the stream is never read. *)
Theorem oversized_frame_ends_the_stream
    (payloads : list (list byte)) (sb : SizeBuffer) (rest : list byte)
    (f : MessageReceivedFunctor) (fuel : nat) (c : Connection) :
  Forall receivable payloads ->
  decode_size unsigned_char sb > MaxMessageSize ->
  awaiting_prefix f c ->
  (3 * length payloads + 1 <= fuel)%nat ->
  let r := receive_stream fuel
             (concat (map frame payloads) ++ size_buffer_bytes sb ++ rest) c in
  received_of (snd (fst r)) = payloads /\
  snd r = rest /\
  tally is_DoCloseCalled (snd (fst r)) = 1%nat /\
  tally is_ConnectionClosedCalled (snd (fst r)) = callback_count c 1 /\
  socket_close_flag_ (fst (fst r)) = true.
Proof.
  intros Hps Hgt Hc Hfuel. cbn zeta.
  destruct (receive_stream_frames_then payloads (size_buffer_bytes sb ++ rest) f
              (fuel - 3 * length payloads) Hps c Hc)
    as (c' & es & (Hposted & Hread & Hf) & Hcf & Hcg & Hrec & Hdc & Hcc & Heq).
  replace (3 * length payloads + (fuel - 3 * length payloads))%nat with fuel in Heq by lia.
  rewrite Heq. cbn [fst snd].
  destruct (fuel - 3 * length payloads)%nat as [|k] eqn:Hk; [lia|].
  rewrite (receive_stream_read MaxMessageSize)
    by (try assumption; unfold read_request; rewrite Hread;
        destruct sb as [[[b0 b1] b2] b3]; reflexivity).
  cbn zeta. cbn [fst snd].
  destruct (step_oversized_prefix MaxMessageSize unsigned_char c' sb Hread Hgt)
    as (Hcalls & _ & _ & Hnoread & _ & Hposted1).
  destruct (step_close MaxMessageSize unsigned_char
              (EvReadCompleted None (size_buffer_bytes sb)) c')
    as (_ & Hflag & _ & _ & Hcb).
  rewrite Hcalls in Hflag, Hcb.
  rewrite (receive_stream_no_read k rest) by congruence.
  cbn [fst snd]. rewrite app_nil_r.
  rewrite received_of_app, !tally_app, Hrec, Hdc, Hcc, Hcalls, Hcb.
  rewrite step_read_delivers_nothing, app_nil_r.
  unfold callback_count. rewrite Hcf, Hcg, Hflag.
  repeat split; auto using orb_true_r.
Qed.

End MoreDelivery.

End TcpConnectionMore.

(** ** SharedMemoryCommunication *)

Module SharedMemoryCommunicationFacts.

Import SharedMemory SharedMemoryCommunication.

(** The exclusive create refuses a name that is taken, and only then. *)
Lemma create_only_fails_iff (name : string) (k : Kernel) :
  create_only name k = Threw already_exists_error <-> is_Some (names k !! name).
Proof.
  unfold create_only. destruct (names k !! name) as [r|] eqn:E.
  - split; [intros _; eauto|reflexivity].
  - split; [discriminate|]. intros [r Hr]. discriminate.
Qed.

(** After the creator's deletion the name is free. *)
Lemma DecideDeletion_creator_frees (name : string) (k : Kernel) :
  names (DecideDeletion SharedMemoryCreateOnly name k) !! name = None.
Proof.
  unfold DecideDeletion, remove. simpl. apply lookup_delete_eq.
Qed.

(** The creator's constructor, run on its own, always goes through. *)
Lemma creator_constructs (name : string) (notifier : nat) (k : Kernel) :
  SharedMemoryCommunication SharedMemoryCreateOnly name (Some notifier) k =
    Returned ({| creation_tag := SharedMemoryCreateOnly;
                 shared_memory_name_ := name;
                 shared_memory_ := next_region k;
                 message_notifier_ := notifier;
                 receive_flag_ := true |},
              {| names := <[name := next_region k]> (names k);
                 next_region := S (next_region k) |}).
Proof.
  unfold SharedMemoryCommunication, shared_memory_object, create_only.
  rewrite DecideDeletion_creator_frees.
  unfold DecideDeletion, remove. simpl.
  rewrite insert_delete_eq. reflexivity.
Qed.

(** Claim C2, as the code has it.  The creator first removes whatever
    region carries the name and then creates its own exclusively: on its
    own the construction succeeds whether or not the name was taken, the
    name then refers to the region the new creator built, and other names
    are as before.  The exclusive create by itself fails with
    already_exists_error exactly when the name is taken at that moment. *)
Theorem creator_replaces_region_of_same_name
    (name : string) (notifier : nat) (k : Kernel) :
  (forall k0, create_only name k0 = Threw already_exists_error
              <-> is_Some (names k0 !! name)) /\
  exists ch k',
    SharedMemoryCommunication SharedMemoryCreateOnly name (Some notifier) k
      = Returned (ch, k') /\
    shared_memory_ ch = next_region k /\
    names k' !! name = Some (shared_memory_ ch) /\
    (forall other, other <> name -> names k' !! other = names k !! other).
Proof.
  split; [intros k0; apply create_only_fails_iff|].
  do 2 eexists. split; [apply creator_constructs|]. simpl.
  split; [reflexivity|]. split; [apply lookup_insert_eq|].
  intros other Hne. apply lookup_insert_ne. congruence.
Qed.

(** Claim C2, as stated, fails: a second creator for a name whose region
    exists does not fail with already_exists_error.  Both constructions
    succeed, and the name ends up on the second creator's region, not on
    the one the first creator built. *)
Lemma second_creator_with_same_name_succeeds :
  exists ch1 k1 ch2 k2,
    SharedMemoryCommunication SharedMemoryCreateOnly "maid" (Some 1%nat) empty_kernel
      = Returned (ch1, k1) /\
    names k1 !! "maid" = Some (shared_memory_ ch1) /\
    SharedMemoryCommunication SharedMemoryCreateOnly "maid" (Some 2%nat) k1
      = Returned (ch2, k2) /\
    SharedMemoryCommunication SharedMemoryCreateOnly "maid" (Some 2%nat) k1
      <> Threw already_exists_error /\
    names k2 !! "maid" = Some (shared_memory_ ch2) /\
    shared_memory_ ch2 <> shared_memory_ ch1.
Proof.
  do 4 eexists.
  split; [apply creator_constructs|].
  split; [simpl; apply lookup_insert_eq|].
  split; [apply creator_constructs|].
  split; [rewrite creator_constructs; discriminate|].
  split; [simpl; apply lookup_insert_eq|].
  simpl. discriminate.
Qed.

Section PushFacts.

Variable Queue : Type.
Variable kMessageSize : Z.
Variable Push : CreationTag -> Queue -> list byte -> Outcome (bool * Queue).

(** Claim C7.  With a slot capacity that is a [size_t] value: a message
    longer than [kMessageSize] makes [PushMessage] return false, without
    throwing and with the queue as it was; a message of at most
    [kMessageSize] bytes goes to the queue's [Push], whose outcome is the
    outcome of [PushMessage]. *)
Theorem PushMessage_rejects_oversized_only
    (tag : CreationTag) (message_queue_ : Queue) (message : list byte) :
  0 <= kMessageSize < 2 ^ 64 ->
  (Z.of_nat (length message) > kMessageSize ->
   PushMessage Queue kMessageSize Push tag message_queue_ message
   = Returned (false, message_queue_)) /\
  (Z.of_nat (length message) <= kMessageSize ->
   PushMessage Queue kMessageSize Push tag message_queue_ message
   = Push tag message_queue_ message).
Proof.
  intros Hk. unfold PushMessage, size_t. rewrite Z.mod_small by exact Hk.
  destruct (Z.gtb_spec (Z.of_nat (length message)) kMessageSize); split;
    intros; first [reflexivity | lia].
Qed.

End PushFacts.

(** A queue of four-byte slots that appends: five bytes are refused,
    three are pushed. *)
Lemma PushMessage_rejects_oversized_only_witness :
  let push := fun (_ : CreationTag) (q : list (list byte)) (m : list byte) =>
                Returned (true, q ++ [m]) in
  PushMessage (list (list byte)) 4 push SharedMemoryCreateOnly [[x01]]
    [x01; x02; x03; x04; x05] = Returned (false, [[x01]]) /\
  PushMessage (list (list byte)) 4 push SharedMemoryOpenOnly [[x01]]
    [x01; x02; x03] = Returned (true, [[x01]; [x01; x02; x03]]).
Proof.
  cbn zeta. split.
  - apply (PushMessage_rejects_oversized_only (list (list byte)) 4
             (fun _ q m => Returned (true, q ++ [m]))
             SharedMemoryCreateOnly [[x01]] [x01; x02; x03; x04; x05]);
      simpl; lia.
  - refine (eq_trans (proj2 (PushMessage_rejects_oversized_only (list (list byte)) 4
             (fun _ q m => Returned (true, q ++ [m]))
             SharedMemoryOpenOnly [[x01]] [x01; x02; x03] _) _) _);
      [lia | simpl; lia | reflexivity].
Defined.

End SharedMemoryCommunicationFacts.

(** ** The authenticated address register *)

Module AddressRegisterFacts.

Import AddressRegister.

Lemma memcpy_full (dst src : list byte) :
  length dst = length src -> memcpy dst src = src.
Proof.
  intros H. unfold memcpy. rewrite <- H, drop_all, app_nil_r. reflexivity.
Qed.

(** *** Reading a character array as a C string *)

Lemma c_str_length (memory : list byte) : (length (c_str memory) <= length memory)%nat.
Proof.
  induction memory as [|b rest IH]; simpl; [lia|].
  destruct (bool_decide (b = x00)); simpl; lia.
Qed.

Lemma c_str_shorter (memory : list byte) :
  x00 ∈ memory -> (length (c_str memory) < length memory)%nat.
Proof.
  induction memory as [|b rest IH]; intros Hin; [inversion Hin|].
  simpl. destruct (bool_decide_reflect (b = x00)) as [->|Hne]; simpl; [lia|].
  apply elem_of_cons in Hin as [Heq|Hin]; [congruence|].
  specialize (IH Hin). lia.
Qed.

(** The read gives back the array exactly when the array holds no zero
    byte and the byte right behind it is zero. *)
Lemma read_array_exact (array behind : list byte) :
  read_array array behind = array <-> (x00 ∉ array) /\ behind = [].
Proof.
  unfold read_array. destruct (bool_decide_reflect (x00 ∈ array)) as [Hin|Hnin].
  - split.
    + intros E. pose proof (c_str_shorter array Hin) as Hlt. rewrite E in Hlt. lia.
    + intros [Hnin _]. contradiction.
  - split.
    + intros E. split; [exact Hnin|].
      rewrite <- (app_nil_r array) in E at 2. apply app_inv_head in E. exact E.
    + intros [_ ->]. apply app_nil_r.
Qed.

(** A read of the array's own length is the array. *)
Lemma read_array_same_length (array behind a : list byte) :
  read_array array behind = a -> length a = length array -> a = array.
Proof.
  unfold read_array. destruct (bool_decide_reflect (x00 ∈ array)) as [Hin|Hnin].
  - intros <- Hl. pose proof (c_str_shorter array Hin). lia.
  - intros <- Hl. rewrite length_app in Hl.
    destruct behind; [apply app_nil_r|simpl in Hl; lia].
Qed.

(** The writer's constructor builds the toy registers. *)
Example toy_register_constructed :
  exists k, SafeReadOnlySharedMemory unit unit toy_Sign 2 2 toy_maid
              SharedMemory.empty_kernel = Returned (toy_register, k).
Proof. eexists. reflexivity. Qed.

Example toy_register_zero_constructed :
  exists k, SafeReadOnlySharedMemory unit unit toy_Sign 2 2 toy_maid_zero
              SharedMemory.empty_kernel = Returned (toy_register_zero, k).
Proof. eexists. reflexivity. Qed.

(** Whatever lies behind the array, [GetAddress] does not return a stored
    address that holds a zero byte: it returns the bytes before it. *)
Lemma GetAddress_stops_at_zero_byte (overrun : SafeAddress -> list byte)
    (sa : SafeAddress) :
  x00 ∈ address sa ->
  fst (GetAddress overrun sa) = c_str (address sa) /\
  fst (GetAddress overrun sa) <> address sa.
Proof.
  intros Hin. unfold GetAddress, read_address, read_array. cbn [fst lock address].
  rewrite bool_decide_eq_true_2 by exact Hin.
  split; [reflexivity|]. intros E. pose proof (c_str_shorter _ Hin) as Hlt.
  rewrite E in Hlt. lia.
Qed.

(** Claim C3, at an input where the code departs from it.  The toy
    register holds the address 01 02; [ChangeAddress] is called with the
    new address 05 00 and its signature, which verifies and fills the
    buffer.  Whatever lies behind the address array, the call returns and
    both fields are overwritten, and the [GetAddress] that follows returns
    05, not the new address 05 00: the buffer is read as a C string. *)
Theorem GetAddress_after_ChangeAddress_stops_at_zero_byte
    (overrun : SafeAddress -> list byte) :
  let r := ChangeAddress unit unit toy_CheckSignature overrun toy_maid
             [x05; x00] [x00; x05] toy_register in
  toy_CheckSignature [x05; x00] [x00; x05] tt = true /\
  fst r = Returned tt /\
  address (snd r) = [x05; x00] /\
  signature (snd r) = [x00; x05] /\
  fst (GetAddress overrun (snd r)) = [x05] /\
  fst (GetAddress overrun (snd r)) <> [x05; x00].
Proof.
  cbn zeta.
  assert (E : ChangeAddress unit unit toy_CheckSignature overrun toy_maid
                [x05; x00] [x00; x05] toy_register
              = (Returned tt,
                 {| mutex := false; address := [x05; x00]; signature := [x00; x05] |})).
  { unfold ChangeAddress, read_address, read_array. cbn [lock address].
    rewrite (bool_decide_eq_false_2 (x00 ∈ [x01; x02]))
      by (intros H; repeat (apply elem_of_cons in H as [H|H]; [discriminate H|]);
          inversion H).
    rewrite bool_decide_eq_false_2 by discriminate.
    reflexivity. }
  rewrite E. cbn [fst snd address signature].
  destruct (GetAddress_stops_at_zero_byte overrun
              {| mutex := false; address := [x05; x00]; signature := [x00; x05] |})
    as [Hread Hne].
  { cbn [address]. apply elem_of_cons. right. apply elem_of_cons. left. reflexivity. }
  split; [reflexivity|]. split; [reflexivity|]. split; [reflexivity|].
  split; [reflexivity|]. split; [exact Hread|exact Hne].
Qed.

(** Claim C9, at an input where the code departs from it.  The register
    built for the maid named 05 00 holds that address; [ChangeAddress] is
    called with the same address 05 00 and a signature that does not
    verify.  Whatever lies behind the address array, the address read as
    a C string is 05, which is not the new address: the early return is
    not taken, the signature is checked and invalid_signature is thrown
    (the fields stay as they were). *)
Theorem ChangeAddress_to_stored_address_with_zero_byte_throws
    (overrun : SafeAddress -> list byte) :
  address toy_register_zero = [x05; x00] /\
  toy_CheckSignature [x05; x00] [xff; xff] tt = false /\
  read_address overrun toy_register_zero = [x05] /\
  ChangeAddress unit unit toy_CheckSignature overrun toy_maid_zero
    [x05; x00] [xff; xff] toy_register_zero
  = (Threw invalid_signature, toy_register_zero).
Proof.
  assert (Hread : read_address overrun toy_register_zero = [x05]).
  { unfold read_address, read_array. cbn [address toy_register_zero].
    rewrite bool_decide_eq_true_2; [reflexivity|].
    apply elem_of_cons. right. apply elem_of_cons. left. reflexivity. }
  split; [reflexivity|]. split; [reflexivity|]. split; [exact Hread|].
  unfold ChangeAddress. cbn zeta.
  change (read_address overrun (lock toy_register_zero))
    with (read_address overrun toy_register_zero).
  rewrite Hread. reflexivity.
Qed.

(** With the signature array right behind the address array, the same
    happens without any zero byte in the address: the read of the toy
    register runs on into the signature. *)
Remark ChangeAddress_to_stored_address_reads_into_signature :
  read_address signature_behind toy_register = [x01; x02; x02; x01] /\
  ChangeAddress unit unit toy_CheckSignature signature_behind toy_maid
    [x01; x02] [xff; xff] toy_register
  = (Threw invalid_signature, toy_register).
Proof. split; reflexivity. Qed.

End AddressRegisterFacts.

(** ** The address register: further properties of the code *)

Module AddressRegisterMore.

Import SharedMemory AddressRegister AddressRegisterFacts.

Section MoreRegister.

Variable PublicKey PrivateKey : Type.
Variable Sign : list byte -> PrivateKey -> list byte.
Variable CheckSignature : list byte -> list byte -> PublicKey -> bool.
Variable address_size signature_size : nat.
Variable overrun : SafeAddress -> list byte.

Local Abbreviation Maid := (AddressRegister.Maid PublicKey PrivateKey).
Local Abbreviation Writer := (AddressRegister.Writer PublicKey PrivateKey).
Local Abbreviation ChangeAddress :=
  (AddressRegister.ChangeAddress PublicKey PrivateKey CheckSignature overrun).
Local Abbreviation ChangeAddress_all :=
  (AddressRegister.ChangeAddress_all PublicKey PrivateKey CheckSignature overrun).
Local Abbreviation authentic :=
  (AddressRegister.authentic PublicKey PrivateKey CheckSignature).
Local Abbreviation well_sized :=
  (AddressRegister.well_sized PublicKey PrivateKey Sign address_size signature_size).
Local Abbreviation SafeReadOnlySharedMemory :=
  (AddressRegister.SafeReadOnlySharedMemory PublicKey PrivateKey Sign
     address_size signature_size).
Local Abbreviation Writer_new :=
  (AddressRegister.Writer_new PublicKey PrivateKey Sign address_size signature_size).
Local Abbreviation Writer_delete := (AddressRegister.Writer_delete PublicKey PrivateKey).
Local Abbreviation Writer_ChangeAddress :=
  (AddressRegister.Writer_ChangeAddress PublicKey PrivateKey CheckSignature overrun).
Local Abbreviation current_address := (fun sa => read_address overrun (lock sa)).

Lemma ChangeAddress_cases (maid_ : Maid) (a s : list byte) (sa : SafeAddress) :
  let r := ChangeAddress maid_ a s sa in
  (fst r = Returned tt /\ address (snd r) = address sa /\ signature (snd r) = signature sa
     /\ mutex (snd r) = false /\ a = current_address sa) \/
  (fst r = Threw invalid_signature /\ address (snd r) = address sa
     /\ signature (snd r) = signature sa /\ mutex (snd r) = false
     /\ a <> current_address sa
     /\ CheckSignature a s (public_key _ _ maid_) = false) \/
  (fst r = Returned tt /\ address (snd r) = a /\ signature (snd r) = s
     /\ mutex (snd r) = false /\ a <> current_address sa
     /\ CheckSignature a s (public_key _ _ maid_) = true
     /\ length a = length (address sa) /\ length s = length (signature sa)) \/
  (fst r = Aborted /\ address (snd r) = a /\ signature (snd r) = signature sa
     /\ mutex (snd r) = true /\ a <> current_address sa
     /\ CheckSignature a s (public_key _ _ maid_) = true
     /\ length a = length (address sa) /\ length s <> length (signature sa)) \/
  (fst r = Aborted /\ address (snd r) = address sa /\ signature (snd r) = signature sa
     /\ mutex (snd r) = true /\ a <> current_address sa
     /\ CheckSignature a s (public_key _ _ maid_) = true
     /\ length a <> length (address sa)).
Proof.
  cbn zeta. unfold AddressRegister.ChangeAddress.
  generalize (read_address overrun (lock sa)). intros cur.
  destruct sa as [m a0 s0].
  unfold lock, set_address, set_signature, unlock. cbn [address signature mutex].
  destruct (decide (cur = a)) as [->|Hne].
  - rewrite bool_decide_eq_true_2 by reflexivity. left. repeat split; reflexivity.
  - rewrite bool_decide_eq_false_2 by exact Hne. right.
    destruct (CheckSignature a s (public_key _ _ maid_)) eqn:Hcheck.
    + right.
      destruct (Nat.eqb_spec (length a0) (length a)) as [Hla|Hla].
      * cbn [address signature].
        destruct (Nat.eqb_spec (length s0) (length s)) as [Hls|Hls].
        -- left. cbn [fst snd address signature mutex].
           rewrite !memcpy_full by congruence. repeat split; congruence.
        -- right. left. cbn [fst snd address signature mutex].
           rewrite !memcpy_full by congruence. repeat split; congruence.
      * right. right. cbn [fst snd address signature mutex]. repeat split; congruence.
    + left. cbn [fst snd address signature mutex]. repeat split; congruence.
Qed.

Lemma current_address_differs (a : list byte) (sa : SafeAddress) :
  a <> address sa -> length a = length (address sa) -> a <> current_address sa.
Proof.
  intros Hne Hl E. apply Hne. symmetry in E.
  exact (read_array_same_length _ _ _ E Hl).
Qed.

Lemma ChangeAddress_sizes (maid_ : Maid) (a s : list byte) (sa : SafeAddress) :
  length (address (snd (ChangeAddress maid_ a s sa))) = length (address sa) /\
  length (signature (snd (ChangeAddress maid_ a s sa))) = length (signature sa).
Proof.
  destruct (ChangeAddress_cases maid_ a s sa) as [H|[H|[H|[H|H]]]]; cbn zeta in H;
    decompose [and] H; split; congruence.
Qed.

(** Extra X9.  Whatever it is called with and however it ends (return,
    throw or failed assertion), [ChangeAddress] leaves both buffers of the
    region at their size: a copy only happens after the assertion that the
    source fills the buffer. *)
Theorem ChangeAddress_keeps_buffer_sizes (maid_ : Maid) (a s : list byte) (sa : SafeAddress) :
  length (address (snd (ChangeAddress maid_ a s sa))) = length (address sa) /\
  length (signature (snd (ChangeAddress maid_ a s sa))) = length (signature sa).
Proof. apply ChangeAddress_sizes. Qed.

Lemma ChangeAddress_authentic (maid_ : Maid) (a s : list byte) (sa : SafeAddress) :
  authentic maid_ sa ->
  fst (ChangeAddress maid_ a s sa) <> Aborted ->
  authentic maid_ (snd (ChangeAddress maid_ a s sa)).
Proof.
  unfold AddressRegister.authentic. intros Hsa Hna.
  destruct (ChangeAddress_cases maid_ a s sa) as [H|[H|[H|[H|H]]]]; cbn zeta in H;
    decompose [and] H; try congruence.
Qed.

(** Extra X10.  If the stored signature verifies for the stored address,
    it still does after any sequence of calls of [ChangeAddress] whose
    arguments fill the buffers, whether the calls return or throw: the
    region never holds an address next to a signature that does not verify
    for it, and the buffers keep their size. *)
Theorem stored_signature_keeps_verifying
    (maid_ : Maid) (requests : list (list byte * list byte)) (sa : SafeAddress) :
  authentic maid_ sa ->
  Forall (fun r => length (fst r) = length (address sa) /\
                   length (snd r) = length (signature sa)) requests ->
  authentic maid_ (ChangeAddress_all maid_ requests sa) /\
  length (address (ChangeAddress_all maid_ requests sa)) = length (address sa) /\
  length (signature (ChangeAddress_all maid_ requests sa)) = length (signature sa).
Proof.
  intros Hauth Hreqs. revert sa Hauth Hreqs.
  induction requests as [|[a s] rest IH]; intros sa Hauth Hreqs; [auto|].
  apply Forall_cons in Hreqs as [[Hla Hls] Hrest]. cbn [fst snd] in Hla, Hls.
  cbn [AddressRegister.ChangeAddress_all].
  destruct (ChangeAddress_sizes maid_ a s sa) as [Ha Hs].
  assert (Hna : fst (ChangeAddress maid_ a s sa) <> Aborted).
  { destruct (ChangeAddress_cases maid_ a s sa) as [H|[H|[H|[H|H]]]]; cbn zeta in H;
      decompose [and] H; congruence. }
  destruct (IH (snd (ChangeAddress maid_ a s sa))) as (H1 & H2 & H3).
  - apply ChangeAddress_authentic; assumption.
  - eapply Forall_impl; [exact Hrest|]. intros [a' s'] [H1 H2]. cbn [fst snd] in *.
    split; congruence.
  - repeat split; congruence.
Qed.

(** Extra X11.  A new address that fills its buffer, with a signature that
    verifies but does not fill the signature buffer: the address is copied
    before the second assertion is evaluated, so the call ends in the
    failed assertion with the new address stored beside the old signature
    and the mutex still locked. *)
Theorem mismatched_signature_size_tears_the_register
    (maid_ : Maid) (a s : list byte) (sa : SafeAddress) :
  a <> address sa ->
  CheckSignature a s (public_key _ _ maid_) = true ->
  length a = length (address sa) ->
  length s <> length (signature sa) ->
  ChangeAddress maid_ a s sa =
    (Aborted, {| mutex := true; address := a; signature := signature sa |}).
Proof.
  intros Hne Hcheck Hla Hls.
  pose proof (current_address_differs a sa Hne Hla) as Hcur.
  destruct (ChangeAddress_cases maid_ a s sa) as [H|[H|[H|[H|H]]]]; cbn zeta in H;
    decompose [and] H; try congruence.
  destruct (ChangeAddress maid_ a s sa) as [o [m a1 s1]]. simpl in *. congruence.
Qed.

Lemma SafeReadOnlySharedMemory_taken (maid : Maid) (k : Kernel) :
  is_Some (names k !! shared_memory_name_) ->
  SafeReadOnlySharedMemory maid k = Threw already_exists_error.
Proof.
  intros [r Hr]. unfold AddressRegister.SafeReadOnlySharedMemory, create_only.
  rewrite Hr. reflexivity.
Qed.

Lemma SafeReadOnlySharedMemory_free (maid : Maid) (k : Kernel) :
  names k !! shared_memory_name_ = None -> well_sized maid ->
  SafeReadOnlySharedMemory maid k =
    Returned ({| mutex := false; address := name _ _ maid;
                 signature := Sign (name _ _ maid) (private_key _ _ maid) |},
              {| names := <[shared_memory_name_ := next_region k]> (names k);
                 next_region := S (next_region k) |}).
Proof.
  intros Hfree [Ha Hs]. unfold AddressRegister.SafeReadOnlySharedMemory, create_only.
  rewrite Hfree. cbn [address signature set_address set_signature].
  rewrite length_replicate, Ha, Nat.eqb_refl.
  rewrite length_replicate, Hs, Nat.eqb_refl.
  rewrite !memcpy_full by (rewrite length_replicate; congruence).
  reflexivity.
Qed.

(** Extra X12.  A writer can only be constructed while the name is free;
    while it lives, constructing another writer throws
    already_exists_error (the register's constructor, unlike the queue
    channel's, does not remove the name first) and a reader attaches to
    the writer's region; after the writer's destructor a reader's
    constructor throws not_found_error and a new writer can be
    constructed, on a region of its own. *)
Theorem register_name_is_exclusive
    (maid other : Maid) (sys sys1 : System) (w : Writer) :
  Writer_new maid sys = Returned (w, sys1) ->
  names (kernel sys) !! shared_memory_name_ = None /\
  Writer_new other sys1 = Threw already_exists_error /\
  Reader_new sys1 = Returned (writer_region _ _ w) /\
  Reader_new (Writer_delete w sys1) = Threw not_found_error /\
  (well_sized other ->
   exists w2 sys2, Writer_new other (Writer_delete w sys1) = Returned (w2, sys2)
                   /\ writer_region _ _ w2 <> writer_region _ _ w).
Proof.
  unfold AddressRegister.Writer_new. intros Hnew.
  destruct (names (kernel sys) !! shared_memory_name_) as [r0|] eqn:Hfree.
  { rewrite SafeReadOnlySharedMemory_taken in Hnew by eauto. discriminate. }
  split; [reflexivity|].
  unfold AddressRegister.SafeReadOnlySharedMemory, create_only in Hnew.
  rewrite Hfree in Hnew. cbn [address signature set_address set_signature] in Hnew.
  repeat match type of Hnew with
         | context [if ?b then _ else _] => destruct b; [|discriminate]
         end.
  injection Hnew as <- <-. cbn [kernel regions writer_region].
  split.
  { rewrite SafeReadOnlySharedMemory_taken; [reflexivity|].
    cbn [names]. rewrite lookup_insert_eq. eauto. }
  split.
  { unfold Reader_new, LifeStuffManagerAddressGetter, open_only. cbn [kernel names].
    rewrite lookup_insert_eq. reflexivity. }
  split.
  { unfold Reader_new, LifeStuffManagerAddressGetter, open_only, AddressRegister.Writer_delete, remove.
    cbn [kernel names snd]. rewrite lookup_delete_eq. reflexivity. }
  intros Hsized. unfold AddressRegister.Writer_delete, remove. cbn [kernel names snd regions next_region].
  rewrite SafeReadOnlySharedMemory_free; [|cbn [names]; apply lookup_delete_eq|exact Hsized].
  do 2 eexists. split; [reflexivity|]. cbn [writer_region next_region]. lia.
Qed.


Lemma Writer_new_returned (maid : Maid) (sys sys1 : System) (w : Writer) :
  Writer_new maid sys = Returned (w, sys1) ->
  well_sized maid /\
  w = {| writer_maid := maid; writer_region := next_region (kernel sys) |} /\
  regions sys1 =
    <[next_region (kernel sys) :=
        {| mutex := false; address := name _ _ maid;
           signature := Sign (name _ _ maid) (private_key _ _ maid) |}]> (regions sys) /\
  names (kernel sys1) !! shared_memory_name_ = Some (next_region (kernel sys)).
Proof.
  unfold AddressRegister.Writer_new. intros Hnew.
  destruct (names (kernel sys) !! shared_memory_name_) as [r0|] eqn:Hfree.
  { rewrite SafeReadOnlySharedMemory_taken in Hnew by eauto. discriminate. }
  unfold AddressRegister.SafeReadOnlySharedMemory, create_only in Hnew.
  rewrite Hfree in Hnew. cbn [address signature set_address set_signature] in Hnew.
  destruct (Nat.eqb_spec (length (replicate address_size x00)) (length (name _ _ maid)))
    as [Ha|]; [|discriminate].
  destruct (Nat.eqb_spec (length (replicate signature_size x00))
              (length (Sign (name _ _ maid) (private_key _ _ maid))))
    as [Hs|]; [|discriminate].
  rewrite !memcpy_full in Hnew by assumption.
  injection Hnew as <- <-. cbn [kernel regions names].
  rewrite length_replicate in Ha, Hs.
  repeat split; auto. apply lookup_insert_eq.
Qed.

Lemma ChangeAddress_accepts (maid_ : Maid) (a s : list byte) (sa : SafeAddress) :
  a <> current_address sa ->
  CheckSignature a s (public_key _ _ maid_) = true ->
  length a = length (address sa) -> length s = length (signature sa) ->
  ChangeAddress maid_ a s sa =
    (Returned tt, {| mutex := false; address := a; signature := s |}).
Proof.
  intros Hne Hcheck Hla Hls.
  destruct (ChangeAddress_cases maid_ a s sa)
    as [(_ & _ & _ & _ & E)|[(_ & _ & _ & _ & _ & E)|[(Ho & Ha & Hs & Hm & _)
        |[(_ & _ & _ & _ & _ & _ & _ & E)|(_ & _ & _ & _ & _ & _ & E)]]]];
    try congruence.
  destruct (ChangeAddress maid_ a s sa) as [o [m a1 s1]]. simpl in *. congruence.
Qed.

Lemma ChangeAddress_refuses (maid_ : Maid) (a s : list byte) (sa : SafeAddress) :
  a <> current_address sa ->
  CheckSignature a s (public_key _ _ maid_) = false ->
  ChangeAddress maid_ a s sa = (Threw invalid_signature, unlock sa).
Proof.
  intros Hne Hcheck.
  destruct (ChangeAddress_cases maid_ a s sa)
    as [(_ & _ & _ & _ & E)|[(Ho & Ha & Hs & Hm & _)|[(_ & _ & _ & _ & _ & E & _)
        |[(_ & _ & _ & _ & _ & E & _)|(_ & _ & _ & _ & _ & E & _)]]]];
    try congruence.
  destruct (ChangeAddress maid_ a s sa) as [o [m a1 s1]]. destruct sa as [m0 a0 s0].
  unfold unlock. simpl in *. congruence.
Qed.

Lemma read_address_exact (sa : SafeAddress) :
  (forall sa', overrun sa' = []) -> x00 ∉ address sa ->
  read_address overrun sa = address sa.
Proof.
  intros Hzero Hnin. unfold read_address. apply read_array_exact. auto.
Qed.


End MoreRegister.

End AddressRegisterMore.

(** ** SharedMemoryCommunication: creator and opener *)

Module SharedMemoryCommunicationMore.

Import SharedMemory SharedMemoryCommunication SharedMemoryCommunicationFacts.

Lemma opener_constructs (name : string) (notifier : nat) (k : Kernel) :
  SharedMemoryCommunication SharedMemoryOpenOnly name (Some notifier) k =
  match names k !! name with
  | Some r => Returned ({| creation_tag := SharedMemoryOpenOnly;
                           shared_memory_name_ := name;
                           shared_memory_ := r;
                           message_notifier_ := notifier;
                           receive_flag_ := true |}, k)
  | None => Threw not_found_error
  end.
Proof.
  unfold SharedMemoryCommunication, shared_memory_object, open_only, DecideDeletion.
  destruct (names k !! name); reflexivity.
Qed.

(** Extra X14.  An opener's constructor throws not_found_error exactly
    when no region carries the name, and otherwise attaches to the region
    under the name without touching the name table.  After a creator was
    constructed, an opener of the same name gets the creator's region; the
    opener's destructor leaves the name in place, the creator's destructor
    removes it, and an opener constructed after that throws
    not_found_error. *)
Theorem opener_attaches_to_the_creators_region
    (name : string) (creator_notifier opener_notifier : nat) (k : Kernel) :
  (forall k0, SharedMemoryCommunication SharedMemoryOpenOnly name (Some opener_notifier) k0
              = Threw not_found_error <-> names k0 !! name = None) /\
  exists creator k1 opener,
    SharedMemoryCommunication SharedMemoryCreateOnly name (Some creator_notifier) k
      = Returned (creator, k1) /\
    SharedMemoryCommunication SharedMemoryOpenOnly name (Some opener_notifier) k1
      = Returned (opener, k1) /\
    shared_memory_ opener = shared_memory_ creator /\
    destroy opener k1 = k1 /\
    names (destroy creator k1) !! name = None /\
    SharedMemoryCommunication SharedMemoryOpenOnly name (Some opener_notifier)
      (destroy creator k1) = Threw not_found_error.
Proof.
  split.
  - intros k0. rewrite opener_constructs.
    destruct (names k0 !! name); split; intros H; try discriminate H; reflexivity.
  - do 3 eexists. split; [apply creator_constructs|].
    split; [rewrite opener_constructs; cbn [names]; rewrite lookup_insert_eq; reflexivity|].
    split; [reflexivity|]. split; [reflexivity|].
    assert (Hfree : forall k', names (DecideDeletion SharedMemoryCreateOnly name k') !! name
                               = None) by (intros; apply DecideDeletion_creator_frees).
    split; [apply Hfree|].
    rewrite opener_constructs. unfold destroy. cbn [creation_tag shared_memory_name_].
    rewrite Hfree. reflexivity.
Qed.

End SharedMemoryCommunicationMore.

(** ** The vault configuration *)

Module VaultConfigFacts.

Import VaultConfig.

Section ConfigFacts.

Variable Pmid PublicPmid KeyChain Path : Type.
Variable chain_pmid : KeyChain -> Pmid.
Variable public_part : Pmid -> PublicPmid.
Variable ReadKeyChainList : Path -> list KeyChain.

Local Abbreviation GetPmidFromKeysFile :=
  (VaultConfig.GetPmidFromKeysFile Pmid KeyChain Path chain_pmid ReadKeyChainList).
Local Abbreviation GetPublicPmidsFromKeysFile :=
  (VaultConfig.GetPublicPmidsFromKeysFile Pmid PublicPmid KeyChain Path
     chain_pmid public_part ReadKeyChainList).

Lemma push_back_loop (chains : list KeyChain) (acc : list PublicPmid) :
  fold_left (fun public_pmids key_chain =>
               public_pmids ++ [public_part (chain_pmid key_chain)]) chains acc
  = acc ++ map (fun key_chain => public_part (chain_pmid key_chain)) chains.
Proof.
  revert acc. induction chains as [|kc chains IH]; intros acc; simpl.
  - rewrite app_nil_r. reflexivity.
  - rewrite IH, <- app_assoc. reflexivity.
Qed.

(** Extra X15.  [GetPmidFromKeysFile] throws invalid_parameter exactly when
    the index is not below the number of key chains in the file; the
    bounds-checked access after the test never throws; and when it returns
    a pmid, [GetPublicPmidsFromKeysFile] on the same file has as many
    entries as there are key chains and holds that pmid's public part at
    the same index. *)
Theorem keys_file_index_is_checked (keys_path : Path) (identity_index : nat) :
  (GetPmidFromKeysFile keys_path identity_index = inr (common_error invalid_parameter)
   <-> (length (ReadKeyChainList keys_path) <= identity_index)%nat) /\
  GetPmidFromKeysFile keys_path identity_index <> inr std_out_of_range /\
  length (GetPublicPmidsFromKeysFile keys_path) = length (ReadKeyChainList keys_path) /\
  (forall p, GetPmidFromKeysFile keys_path identity_index = inl p ->
             GetPublicPmidsFromKeysFile keys_path !! identity_index
             = Some (public_part p)).
Proof.
  unfold VaultConfig.GetPmidFromKeysFile, VaultConfig.GetPublicPmidsFromKeysFile.
  rewrite push_back_loop. cbn [app].
  set (chains := ReadKeyChainList keys_path).
  destruct (Nat.leb_spec (length chains) identity_index) as [Hge|Hlt].
  - repeat split; try discriminate; auto using length_map.
  - destruct (lookup_lt_is_Some_2 chains identity_index Hlt) as [kc Hkc].
    rewrite Hkc. repeat split; try discriminate; auto using length_map.
    + lia.
    + intros p [= <-]. rewrite list_lookup_fmap, Hkc. reflexivity.
Qed.

End ConfigFacts.

End VaultConfigFacts.

(** ** Instances of the further properties *)

Module MoreExamples.

Import TcpConnection TcpConnectionFacts TcpConnectionExamples TcpConnectionMore.
Import SharedMemory AddressRegister AddressRegisterMore.

Lemma initial_is_idle : idle initial.
Proof. repeat split; reflexivity. Qed.

Lemma started_awaits_prefix :
  awaiting_prefix 7%nat (fst (Start (Some 7%nat) None true initial)).
Proof. repeat split; reflexivity. Qed.

(** Three calls of [Send], the second with an empty payload; two lambdas
    run and one write completes. *)
Lemma frames_leave_in_order_of_Send_witness :
  let r := run 1048576 unsigned_char
             [EvSend [x01]; EvSend []; EvSend [x02; x03];
              EvRunPosted; EvRunPosted; EvWriteCompleted None] initial in
  wire_of (snd r) ++ backlog (fst r) = concat [frame [x01]; frame [x02; x03]].
Proof.
  exact (frames_leave_in_order_of_Send 1048576 unsigned_char
           [EvSend [x01]; EvSend []; EvSend [x02; x03];
            EvRunPosted; EvRunPosted; EvWriteCompleted None] initial initial_is_idle).
Defined.

(** A second [Start] with other functors. *)
Lemma Start_takes_effect_once_witness :
  on_connection_closed_
    (fst (run 1048576 unsigned_char [EvStart (Some 5%nat) None false; EvClose; EvRunPosted]
            (fst (Start (Some 1%nat) (Some 2%nat) true initial))))
  = Some 2%nat.
Proof.
  exact (proj1 (proj2 (proj2
    (Start_takes_effect_once 1048576 unsigned_char
       [EvStart (Some 5%nat) None false; EvClose; EvRunPosted]
       (fst (Start (Some 1%nat) (Some 2%nat) true initial)) eq_refl)))).
Defined.

(** A frame of two bytes read by a fresh connection. *)
Lemma delivered_payloads_fit_witness :
  Forall (fun p => Z.of_nat (length p) <= 1048576)
    (received_of (snd (run 1048576 unsigned_char
       [EvStart (Some 7%nat) None true;
        EvReadCompleted None [x00; x00; x00; x02];
        EvReadCompleted None [x01; x02]; EvRunPosted] initial))).
Proof.
  apply (delivered_payloads_fit 1048576 unsigned_char).
  split; [discriminate|reflexivity].
Defined.

(** A write fails; a later [Send] is queued and nothing is written. *)
Lemma failed_write_stops_transmission_witness :
  let c := fst (run 1048576 unsigned_char [EvSend [x01]; EvRunPosted] initial) in
  let c1 := fst (step 1048576 unsigned_char (EvWriteCompleted (Some eof)) c) in
  wire_of (snd (run 1048576 unsigned_char
                  [EvSend [x02]; EvRunPosted; EvWriteCompleted None] c1)) = [].
Proof.
  cbn zeta.
  refine (proj1 (proj2 (proj2
    (failed_write_stops_transmission 1048576 unsigned_char eof
       [EvSend [x02]; EvRunPosted; EvWriteCompleted None]
       (fst (run 1048576 unsigned_char [EvSend [x01]; EvRunPosted] initial))
       eq_refl _)))).
  discriminate.
Defined.

(** One frame and the first five bytes of a frame of three. *)
Lemma truncated_frame_is_not_delivered_witness :
  received_of (snd (fst (receive_stream 1048576 unsigned_char 10
     (concat (map frame [[x01]]) ++ take 5 (frame [x02; x03; x04]))
     (fst (Start (Some 7%nat) None true initial))))) = [[x01]].
Proof.
  refine (proj1 (truncated_frame_is_not_delivered 1048576 one_megabyte_fits
            [[x01]] [x02; x03; x04] 5 7%nat 10
            (fst (Start (Some 7%nat) None true initial)) _ _ _ started_awaits_prefix _)).
  - repeat constructor; unfold receivable; simpl; lia.
  - unfold receivable; simpl; lia.
  - simpl; lia.
  - simpl; lia.
Defined.

(** One frame, then the prefix ff 00 00 00 and one more byte. *)
Lemma oversized_frame_ends_the_stream_witness :
  let r := receive_stream 1048576 unsigned_char 4
             (concat (map frame [[x01]]) ++ size_buffer_bytes (xff, x00, x00, x00) ++ [x09])
             (fst (Start (Some 7%nat) None true initial)) in
  received_of (snd (fst r)) = [[x01]] /\ snd r = [x09].
Proof.
  cbn zeta.
  pose proof (oversized_frame_ends_the_stream 1048576 one_megabyte_fits
                [[x01]] (xff, x00, x00, x00) [x09] 7%nat 4
                (fst (Start (Some 7%nat) None true initial))) as H.
  cbn zeta in H. destruct H as (H1 & H2 & _).
  - repeat constructor; unfold receivable; simpl; lia.
  - reflexivity.
  - exact started_awaits_prefix.
  - simpl; lia.
  - split; [exact H1|exact H2].
Defined.

(** The frame of the empty payload, then a frame of one byte. *)
Lemma receiver_delivers_every_frame_within_bound_witness :
  received_of (snd (fst (receive_stream 1048576 unsigned_char 6
     (concat (map frame [[]; [x01]]))
     (fst (Start (Some 7%nat) None true initial))))) = [[]; [x01]].
Proof.
  refine (proj1 (receiver_delivers_every_frame_within_bound 1048576 one_megabyte_fits
            [[]; [x01]] 7%nat 6
            (fst (Start (Some 7%nat) None true initial)) _ started_awaits_prefix _)).
  - repeat constructor; unfold receivable; simpl; lia.
  - simpl; lia.
Defined.

(** The toy register after a good and a bad request. *)
Lemma stored_signature_keeps_verifying_witness :
  authentic unit unit toy_CheckSignature toy_maid
    (ChangeAddress_all unit unit toy_CheckSignature signature_behind toy_maid
       [([x03; x04], [x04; x03]); ([x05; x06], [x00; x00])] toy_register).
Proof.
  refine (proj1 (stored_signature_keeps_verifying unit unit toy_CheckSignature
            signature_behind toy_maid
            [([x03; x04], [x04; x03]); ([x05; x06], [x00; x00])] toy_register eq_refl _)).
  repeat constructor.
Defined.

(** A register whose signature buffer has three bytes, and a request with
    a two-byte signature that verifies. *)
Lemma mismatched_signature_size_tears_the_register_witness :
  ChangeAddress unit unit toy_CheckSignature signature_behind toy_maid
    [x03; x04] [x04; x03]
    {| mutex := false; address := [x01; x02]; signature := [x00; x00; x00] |}
  = (Aborted, {| mutex := true; address := [x03; x04]; signature := [x00; x00; x00] |}).
Proof.
  apply (mismatched_signature_size_tears_the_register unit unit toy_CheckSignature
           signature_behind toy_maid [x03; x04] [x04; x03]
           {| mutex := false; address := [x01; x02]; signature := [x00; x00; x00] |});
    [discriminate | reflexivity | reflexivity | simpl; lia].
Defined.

Lemma toy_writer_constructed :
  Writer_new unit unit toy_Sign 2 2 toy_maid toy_system = Returned (toy_writer, toy_system_1).
Proof. reflexivity. Qed.

Lemma register_name_is_exclusive_witness :
  Writer_new unit unit toy_Sign 2 2 toy_maid toy_system_1 = Threw already_exists_error /\
  Reader_new (Writer_delete unit unit toy_writer toy_system_1) = Threw not_found_error.
Proof.
  pose proof (register_name_is_exclusive unit unit toy_Sign 2 2 toy_maid toy_maid
                toy_system toy_system_1 toy_writer toy_writer_constructed)
    as (_ & H1 & _ & H2 & _).
  split; [exact H1|exact H2].
Defined.

Lemma toy_addresses_hold_no_zero_byte : (x00 ∉ [x01; x02]) /\ (x00 ∉ [x03; x04]).
Proof.
  split; intros H; repeat (apply elem_of_cons in H as [H|H]; [discriminate H|]);
    inversion H.
Qed.


End MoreExamples.
